(** * rauthy frontend: the password-reset / account-enrollment page and the
      live event viewer

    A shallow embedding of the script blocks of
    - [frontend/src/lib/search/OrderBy.svelte] (second document: the
      password-reset page), and
    - [unnamed/part_000] (the event viewer),
    together with the properties the specification states about them.

    Conventions.  A page is a record of its [let] variables; a handler is a
    function from states to states.  The network boundary is an oracle that
    answers every request with a response, and every request a handler makes
    is appended to the ghost field [calls] of the state.  A JavaScript
    exception ends the handler at the statement that throws, keeping the
    assignments made before it. *)

From Stdlib Require Import ZArith List String Ascii Bool Lia Sorted.
From stdpp Require Import base option list gmap strings.

Open Scope string_scope.
Open Scope list_scope.
Open Scope Z_scope.

(** ** JavaScript primitives the scripts rely on *)
Module Js.

(** Truthiness of a value that is a string, [null] or [undefined]. *)
Definition truthy (v : option string) : bool :=
  match v with
  | Some s => negb (String.eqb s "")
  | None => false
  end.

(** [arr.slice(start)]: a negative [start] counts from the end and is
    clamped at the first element, a positive one is clamped at the
    length. *)
Definition slice {A : Type} (start : Z) (arr : list A) : list A :=
  let len := Z.of_nat (length arr) in
  let k := if start <? 0 then Z.max (len + start) 0 else Z.min start len in
  drop (Z.to_nat k) arr.

Lemma slice_length {A : Type} (start : Z) (arr : list A) :
  start < 0 -> Z.of_nat (length (slice start arr)) = Z.min (- start) (Z.of_nat (length arr)).
Proof.
  intros Hneg. unfold slice.
  destruct (Z.ltb_spec start 0) as [_|]; [|lia].
  rewrite length_drop. lia.
Qed.

Lemma slice_suffix {A : Type} (start : Z) (arr : list A) :
  exists front, arr = front ++ slice start arr.
Proof.
  unfold slice. eexists. symmetry. apply take_drop.
Qed.

End Js.

(** ** The event viewer ([unnamed/part_000]) *)
Module EventViewer.

Section Stream.

(** The payload type of a parsed event, and [JSON.parse], which throws
    (here: [None]) on malformed text. *)
Variable Event : Type.
Variable JSON_parse : string -> option Event.

(** The callbacks that [stream()] installs on the event source. *)
Inductive Callback : Type :=
| onopen
| onerror
| onmessage (data : string).

(** [es.onmessage]: an empty [ev.data] is falsy and nothing happens; a
    parse error leaves [events] as it was. *)
Definition on_message (data : string) (events : list Event) : list Event :=
  if Js.truthy (Some data) then
    match JSON_parse data with
    | Some event => event :: Js.slice (-499) events
    | None => events
    end
  else events.

Definition handle (cb : Callback) (events : list Event) : list Event :=
  match cb with
  | onopen => []
  | onerror => events
  | onmessage data => on_message data events
  end.

(** The list after a sequence of callbacks, oldest first, from
    [let events = $state([])]. *)
Definition run (cbs : list Callback) : list Event :=
  fold_left (fun events cb => handle cb events) cbs [].

Lemma on_message_bound data events :
  (length events <= 500)%nat -> (length (on_message data events) <= 500)%nat.
Proof.
  intros Hlen. unfold on_message.
  destruct (Js.truthy (Some data)); [|exact Hlen].
  destruct (JSON_parse data) as [event|]; [|exact Hlen].
  cbn [length].
  pose proof (Js.slice_length (-499) events ltac:(lia)). lia.
Qed.

Lemma handle_bound cb events :
  (length events <= 500)%nat -> (length (handle cb events) <= 500)%nat.
Proof.
  destruct cb; cbn [handle length]; auto using on_message_bound with lia.
Qed.

Lemma fold_bound cbs : forall events,
  (length events <= 500)%nat ->
  (length (fold_left (fun events cb => handle cb events) cbs events) <= 500)%nat.
Proof.
  induction cbs as [|cb cbs IH]; intros events Hlen; cbn [fold_left].
  - exact Hlen.
  - apply IH, handle_bound, Hlen.
Qed.

(** C9.  A message that carries an event makes the list that event
    followed by the last 499 (or all, when fewer) of the previous
    events; its length is then at most 500 whatever the list was before;
    and after any sequence of stream callbacks the list holds at most 500
    events. *)
Theorem events_at_most_500 :
  (forall data event events,
      Js.truthy (Some data) = true -> JSON_parse data = Some event ->
      on_message data events = event :: Js.slice (-499) events
      /\ Z.of_nat (length (Js.slice (-499) events)) = Z.min 499 (Z.of_nat (length events))
      /\ (exists older, events = older ++ Js.slice (-499) events)
      /\ (length (on_message data events) <= 500)%nat)
  /\ (forall cbs, (length (run cbs) <= 500)%nat).
Proof.
  split.
  - intros data event events Hdata Hparse.
    assert (Hstep : on_message data events = event :: Js.slice (-499) events).
    { unfold on_message. rewrite Hdata, Hparse. reflexivity. }
    pose proof (Js.slice_length (-499) events ltac:(lia)) as Hlen.
    repeat split.
    + exact Hstep.
    + rewrite Hlen. lia.
    + apply Js.slice_suffix.
    + rewrite Hstep. cbn [length]. lia.
  - intros cbs. unfold run. apply fold_bound. cbn. lia.
Qed.

End Stream.

(** The first part of [events_at_most_500] at a concrete message, and the
    bound after a short sequence of callbacks. *)
Lemma events_at_most_500_witness :
  on_message string Some "e2" ["e1"; "e0"] = ["e2"; "e1"; "e0"]
  /\ (length (run string Some [onopen; onmessage "e0"; onerror; onmessage "e1"]) <= 500)%nat.
Proof.
  destruct (events_at_most_500 string Some) as [Hmsg Hrun].
  split.
  - destruct (Hmsg "e2" "e2" ["e1"; "e0"] eq_refl eq_refl) as [Hstep _].
    exact Hstep.
  - apply Hrun.
Defined.

(** *** The viewer as a whole: saved level, stream and shown events *)
Section Viewer.

Variable Event : Type.
Variable JSON_parse : string -> option Event.

(** The fields [evt.typ] and [evt.level] of an event, and the string method
    [toLowerCase]. *)
Variable typ : Event -> string.
Variable level : Event -> string.
Variable toLowerCase : string -> string.

(** [EventSource.readyState]: 0, 1 and 2. *)
Inductive ReadyState : Type :=
| CONNECTING
| OPEN
| CLOSED.

Record EventSource : Type := {
  url : string;
  readyState : ReadyState;
}.

(** The variables of the script.  [sources] holds every event source
    created so far, in order of creation, and [es] is the position of the
    current one; [localStorage] is the browser's. *)
Record Viewer : Type := {
  es : option nat;
  sources : list EventSource;
  events : list Event;
  eventsFiltered : list Event;
  eventLevel : option string;
  localStorage : gmap string string;
}.

Definition mount (storage : gmap string string) : Viewer :=
  {| es := None; sources := []; events := []; eventsFiltered := [];
     eventLevel := None; localStorage := storage |}.

Definition readSavedEventLevel (storage : gmap string string) : string :=
  if Js.truthy (storage !! "eventLevel") then default "Info" (storage !! "eventLevel")
  else "Info".

Definition saveEventLevel (lvl : string) (storage : gmap string string)
    : gmap string string :=
  <["eventLevel" := lvl]> storage.

(** The first [run] block: what is shown, by level.  A level that is none of
    the four leaves the shown list as it is. *)
Definition visible (lvl : option string) (all shown : list Event) : list Event :=
  match lvl with
  | Some l =>
      if String.eqb l "Info" then all
      else if String.eqb l "Notice" then
        filter (fun evt => typ evt = "Test" \/ level evt = "notice"
                           \/ level evt = "warning" \/ level evt = "critical") all
      else if String.eqb l "Warning" then
        filter (fun evt => typ evt = "Test" \/ level evt = "warning"
                           \/ level evt = "critical") all
      else if String.eqb l "Critical" then
        filter (fun evt => typ evt = "Test" \/ level evt = "critical") all
      else shown
  | None => shown
  end.

Definition filter_block (v : Viewer) : Viewer :=
  {| es := es v; sources := sources v; events := events v;
     eventsFiltered := visible (eventLevel v) (events v) (eventsFiltered v);
     eventLevel := eventLevel v; localStorage := localStorage v |}.

(** [es.close()] on the current source, when there is one and it is not
    closed already. *)
Definition close_current (v : Viewer) : Viewer :=
  match es v with
  | Some i =>
      match sources v !! i with
      | Some src =>
          match readyState src with
          | CLOSED => v
          | _ =>
              {| es := es v;
                 sources := <[i := {| url := url src; readyState := CLOSED |}]> (sources v);
                 events := events v; eventsFiltered := eventsFiltered v;
                 eventLevel := eventLevel v; localStorage := localStorage v |}
          end
      | None => v
      end
  | None => v
  end.

(** [stream()]: a new event source, connecting, becomes the current one. *)
Definition stream (v : Viewer) : Viewer :=
  let lvl :=
    match eventLevel v with
    | Some l => if Js.truthy (Some (toLowerCase l)) then toLowerCase l else "info"
    | None => "info"
    end in
  {| es := Some (length (sources v));
     sources := sources v
                ++ [{| url := "/auth/v1/events/stream?latest=50&level=" +:+ lvl;
                       readyState := CONNECTING |}];
     events := events v; eventsFiltered := eventsFiltered v;
     eventLevel := eventLevel v; localStorage := localStorage v |}.

(** The second [run] block, which follows a change of [eventLevel]. *)
Definition level_block (v : Viewer) : Viewer :=
  match eventLevel v with
  | Some lvl =>
      if Js.truthy (Some lvl) then
        stream
          (close_current
             {| es := es v; sources := sources v; events := events v;
                eventsFiltered := eventsFiltered v; eventLevel := eventLevel v;
                localStorage := saveEventLevel lvl (localStorage v) |})
      else v
  | None => v
  end.

(** An assignment to [eventLevel] and the blocks that follow it; an
    assignment of the value it has already is no change. *)
Definition set_eventLevel (lvl : string) (v : Viewer) : Viewer :=
  if bool_decide (eventLevel v = Some lvl) then v
  else
    level_block
      (filter_block
         {| es := es v; sources := sources v; events := events v;
            eventsFiltered := eventsFiltered v; eventLevel := Some lvl;
            localStorage := localStorage v |}).

(** A callback of the page changes [events], and the first block follows. *)
Definition callback (cb : Callback) (v : Viewer) : Viewer :=
  filter_block
    {| es := es v; sources := sources v;
       events := handle Event JSON_parse cb (events v);
       eventsFiltered := eventsFiltered v; eventLevel := eventLevel v;
       localStorage := localStorage v |}.

Definition set_readyState (i : nat) (st : ReadyState) (v : Viewer) : Viewer :=
  match sources v !! i with
  | Some src =>
      {| es := es v;
         sources := <[i := {| url := url src; readyState := st |}]> (sources v);
         events := events v; eventsFiltered := eventsFiltered v;
         eventLevel := eventLevel v; localStorage := localStorage v |}
  | None => v
  end.

(** What happens to the viewer: [onMount] has read the saved level; a level
    is selected; and what the browser does with the event source at
    position [i]: it opens a connecting source, it reports an error on a
    source that is not closed (and reconnects or gives up; [es.onerror]
    only logs), it delivers a message on an open source.  A closed source
    fires nothing. *)
Inductive Happening : Type :=
| mounted
| selected (lvl : string)
| opened (i : nat)
| failed (i : nat) (reconnects : bool)
| delivered (i : nat) (data : string).

Definition happen (v : Viewer) (h : Happening) : Viewer :=
  match h with
  | mounted => set_eventLevel (readSavedEventLevel (localStorage v)) v
  | selected lvl => set_eventLevel lvl v
  | opened i =>
      match readyState <$> sources v !! i with
      | Some CONNECTING => callback onopen (set_readyState i OPEN v)
      | _ => v
      end
  | failed i reconnects =>
      match readyState <$> sources v !! i with
      | Some CONNECTING | Some OPEN =>
          set_readyState i (if reconnects then CONNECTING else CLOSED) v
      | _ => v
      end
  | delivered i data =>
      match readyState <$> sources v !! i with
      | Some OPEN => callback (onmessage data) v
      | _ => v
      end
  end.

(** The viewer after a sequence of happenings, oldest first. *)
Definition view (storage : gmap string string) (hs : list Happening) : Viewer :=
  fold_left happen hs (mount storage).

(** The levels the first block knows. *)
Definition filter_levels : list string := ["Info"; "Notice"; "Warning"; "Critical"].

Lemma view_snoc (storage : gmap string string) (hs : list Happening) (h : Happening) :
  view storage (hs ++ [h]) = happen (view storage hs) h.
Proof. unfold view. rewrite fold_left_app. reflexivity. Qed.

Lemma visible_known (l : string) (all shown : list Event) :
  In l filter_levels -> visible (Some l) all shown = visible (Some l) all [].
Proof.
  intros [<-|[<-|[<-|[<-|[]]]]]; reflexivity.
Qed.

Lemma visible_sublist (l : string) (all shown : list Event) :
  In l filter_levels -> visible (Some l) all shown `sublist_of` all.
Proof.
  intros [<-|[<-|[<-|[<-|[]]]]]; cbn; solve [reflexivity | apply sublist_filter].
Qed.

Lemma visible_length (lvl : option string) (all shown : list Event) :
  (length all <= 500)%nat -> (length shown <= 500)%nat ->
  (length (visible lvl all shown) <= 500)%nat.
Proof.
  intros Hall Hshown. unfold visible.
  destruct lvl as [l|]; [|exact Hshown].
  repeat match goal with
         | |- context [if ?b then _ else _] => destruct b
         end; try assumption;
    match goal with
    | |- (length (filter ?P all) <= 500)%nat =>
        pose proof (length_filter P all); lia
    end.
Qed.

(** The fields that the second block, and a change of ready state, leave
    alone. *)
Lemma level_block_shown (v : Viewer) :
  events (level_block v) = events v
  /\ eventsFiltered (level_block v) = eventsFiltered v
  /\ eventLevel (level_block v) = eventLevel v.
Proof.
  unfold level_block, stream, close_current.
  destruct (eventLevel v) as [l|] eqn:Hl; [|auto].
  destruct (Js.truthy (Some l)); [|auto]. cbn.
  destruct (es v) as [i|]; [|auto].
  destruct (sources v !! i) as [src|]; [|auto].
  destruct (readyState src); auto.
Qed.

Lemma set_readyState_shown (i : nat) (st : ReadyState) (v : Viewer) :
  events (set_readyState i st v) = events v
  /\ eventsFiltered (set_readyState i st v) = eventsFiltered v
  /\ eventLevel (set_readyState i st v) = eventLevel v
  /\ localStorage (set_readyState i st v) = localStorage v
  /\ es (set_readyState i st v) = es v.
Proof.
  unfold set_readyState. destruct (sources v !! i); repeat split; reflexivity.
Qed.

(** What is shown agrees with the events held. *)
Definition shown_agrees (v : Viewer) : Prop :=
  (length (events v) <= 500)%nat
  /\ (length (eventsFiltered v) <= 500)%nat
  /\ (forall l, eventLevel v = Some l -> In l filter_levels ->
      eventsFiltered v = visible (Some l) (events v) []).

Lemma filter_block_agrees (v : Viewer) :
  (length (events v) <= 500)%nat -> (length (eventsFiltered v) <= 500)%nat ->
  shown_agrees (filter_block v).
Proof.
  intros Hall Hshown. unfold shown_agrees, filter_block. cbn.
  split; [exact Hall|]. split; [apply visible_length; assumption|].
  intros l -> Hknown. apply visible_known, Hknown.
Qed.

Lemma set_eventLevel_agrees (lvl : string) (v : Viewer) :
  shown_agrees v -> shown_agrees (set_eventLevel lvl v).
Proof.
  intros Hv. unfold set_eventLevel.
  destruct (bool_decide (eventLevel v = Some lvl)); [exact Hv|].
  destruct Hv as (Hall & Hshown & _).
  match goal with |- shown_agrees (level_block ?w) =>
    pose proof (filter_block_agrees
                  {| es := es v; sources := sources v; events := events v;
                     eventsFiltered := eventsFiltered v; eventLevel := Some lvl;
                     localStorage := localStorage v |} Hall Hshown) as Hw;
    destruct (level_block_shown w) as (He & Hf & Hl)
  end.
  unfold shown_agrees. rewrite He, Hf, Hl. exact Hw.
Qed.

Lemma callback_agrees (cb : Callback) (v : Viewer) :
  shown_agrees v -> shown_agrees (callback cb v).
Proof.
  intros (Hall & Hshown & _). unfold callback.
  apply filter_block_agrees; cbn; [|exact Hshown].
  apply handle_bound, Hall.
Qed.

Lemma set_readyState_agrees (i : nat) (st : ReadyState) (v : Viewer) :
  shown_agrees v -> shown_agrees (set_readyState i st v).
Proof.
  intros Hv. destruct (set_readyState_shown i st v) as (He & Hf & Hl & _).
  unfold shown_agrees. rewrite He, Hf, Hl. exact Hv.
Qed.

Lemma happen_agrees (v : Viewer) (h : Happening) :
  shown_agrees v -> shown_agrees (happen v h).
Proof.
  intros Hv. destruct h as [|lvl|i|i reconnects|i data]; cbn [happen].
  - apply set_eventLevel_agrees, Hv.
  - apply set_eventLevel_agrees, Hv.
  - destruct (readyState <$> sources v !! i) as [[| |]|]; try exact Hv.
    apply callback_agrees, set_readyState_agrees, Hv.
  - destruct (readyState <$> sources v !! i) as [[| |]|]; try exact Hv;
      apply set_readyState_agrees, Hv.
  - destruct (readyState <$> sources v !! i) as [[| |]|]; try exact Hv.
    apply callback_agrees, Hv.
Qed.

(** The severity filters nest.  At ["Info"] every event is shown; what is
    shown at ["Critical"] is part of what is shown at ["Warning"], that of
    what is shown at ["Notice"], and that of all events, in the same order;
    and a test event, like a critical one, is shown at all four levels. *)
Theorem severity_filters_nest (all shown : list Event) :
  visible (Some "Info") all shown = all
  /\ visible (Some "Critical") all shown `sublist_of` visible (Some "Warning") all shown
  /\ visible (Some "Warning") all shown `sublist_of` visible (Some "Notice") all shown
  /\ visible (Some "Notice") all shown `sublist_of` all
  /\ (forall lvl evt,
        In lvl filter_levels -> evt ∈ all ->
        typ evt = "Test" \/ level evt = "critical" ->
        evt ∈ visible (Some lvl) all shown).
Proof.
  split; [reflexivity|]. cbn [visible]. cbn.
  split; [|split; [|split]].
  - erewrite <- list_filter_filter_l; [apply sublist_filter|]. cbn. tauto.
  - erewrite <- list_filter_filter_l; [apply sublist_filter|]. cbn. tauto.
  - apply sublist_filter.
  - intros lvl evt [<-|[<-|[<-|[<-|[]]]]] Hin Hevt; cbn;
      rewrite ?list_elem_of_filter; tauto.
Qed.

(** After anything that can happen to the viewer, the shown list agrees
    with the events held: at a known level it is the filter of that level
    applied to the current events, hence part of them; and both lists hold
    at most 500 events. *)
Theorem shown_events_agree (storage : gmap string string) (hs : list Happening) :
  (length (events (view storage hs)) <= 500)%nat
  /\ (length (eventsFiltered (view storage hs)) <= 500)%nat
  /\ (forall l, eventLevel (view storage hs) = Some l -> In l filter_levels ->
      eventsFiltered (view storage hs) = visible (Some l) (events (view storage hs)) []
      /\ eventsFiltered (view storage hs) `sublist_of` events (view storage hs)).
Proof.
  assert (Hagrees : shown_agrees (view storage hs)).
  { induction hs as [|h hs IH] using rev_ind.
    - unfold shown_agrees. cbn. repeat split; try lia. discriminate.
    - rewrite view_snoc. apply happen_agrees, IH. }
  destruct Hagrees as (Hall & Hshown & Hknown).
  split; [exact Hall|]. split; [exact Hshown|].
  intros l Hl Hin. split; [apply Hknown; assumption|].
  rewrite (Hknown l Hl Hin). apply visible_sublist, Hin.
Qed.

Lemma truthy_Some (l : string) : Js.truthy (Some l) = true <-> l <> "".
Proof.
  unfold Js.truthy. destruct (String.eqb_spec l ""); cbn; split; congruence.
Qed.

(** *** One live event source *)

(** Only the current source can be connecting or open. *)
Definition one_live (v : Viewer) : Prop :=
  forall i src, sources v !! i = Some src -> readyState src <> CLOSED -> es v = Some i.

Lemma close_current_closed (v : Viewer) :
  one_live v ->
  forall i src, sources (close_current v) !! i = Some src -> readyState src = CLOSED.
Proof.
  intros Hlive i src Hsrc.
  assert (Hothers : forall j srcj, sources v !! j = Some srcj -> es v <> Some j ->
                                   readyState srcj = CLOSED).
  { intros j srcj Hj Hnot. destruct (readyState srcj) eqn:Hst; try reflexivity;
      exfalso; apply Hnot, (Hlive j srcj Hj); congruence. }
  unfold close_current in Hsrc.
  destruct (es v) as [k|] eqn:Hes; [|apply (Hothers i src Hsrc); discriminate].
  destruct (sources v !! k) as [srck|] eqn:Hk.
  - destruct (decide (i = k)) as [->|Hik].
    + destruct (readyState srck) eqn:Hst; cbn in Hsrc;
        try (rewrite list_lookup_insert_eq in Hsrc by (eapply lookup_lt_Some; eassumption);
             injection Hsrc as <-; reflexivity).
      congruence.
    + apply (Hothers i src); [|congruence].
      destruct (readyState srck); cbn in Hsrc;
        rewrite ?list_lookup_insert_ne in Hsrc by congruence; exact Hsrc.
  - apply (Hothers i src Hsrc). intros [= ->]. congruence.
Qed.

Lemma close_current_es (v : Viewer) : es (close_current v) = es v.
Proof.
  unfold close_current. repeat case_match; cbn; congruence.
Qed.

Lemma stream_one_live (v : Viewer) :
  (forall i src, sources v !! i = Some src -> readyState src = CLOSED) ->
  one_live (stream v).
Proof.
  intros Hclosed i src Hsrc Hlive. unfold stream in *. cbn in *.
  destruct (decide (i < length (sources v))%nat) as [Hlt|Hge].
  - rewrite lookup_app_l in Hsrc by exact Hlt.
    exfalso. apply Hlive, (Hclosed i src Hsrc).
  - apply lookup_lt_Some in Hsrc as Hlen. rewrite length_app in Hlen. cbn in Hlen.
    f_equal. lia.
Qed.

Lemma level_block_one_live (v : Viewer) : one_live v -> one_live (level_block v).
Proof.
  intros Hlive. unfold level_block.
  destruct (eventLevel v) as [l|]; [|exact Hlive].
  destruct (Js.truthy (Some l)); [|exact Hlive].
  apply stream_one_live, close_current_closed. exact Hlive.
Qed.

Lemma set_eventLevel_one_live (lvl : string) (v : Viewer) :
  one_live v -> one_live (set_eventLevel lvl v).
Proof.
  intros Hlive. unfold set_eventLevel.
  destruct (bool_decide (eventLevel v = Some lvl)); [exact Hlive|].
  apply level_block_one_live. exact Hlive.
Qed.

Lemma set_readyState_one_live (i : nat) (st : ReadyState) (v : Viewer) :
  one_live v ->
  (forall src, sources v !! i = Some src -> readyState src <> CLOSED) ->
  one_live (set_readyState i st v).
Proof.
  intros Hlive Hi j src Hsrc Hst. unfold set_readyState in *.
  destruct (sources v !! i) as [srci|] eqn:Hsrci; [|exact (Hlive j src Hsrc Hst)].
  cbn in *. destruct (decide (j = i)) as [->|Hji].
  - apply (Hlive i srci Hsrci), (Hi srci eq_refl).
  - rewrite list_lookup_insert_ne in Hsrc by congruence. exact (Hlive j src Hsrc Hst).
Qed.

Lemma callback_one_live (cb : Callback) (v : Viewer) :
  one_live v -> one_live (callback cb v).
Proof. intros Hlive. exact Hlive. Qed.

Lemma happen_one_live (v : Viewer) (h : Happening) :
  one_live v -> one_live (happen v h).
Proof.
  intros Hlive. destruct h as [|lvl|i|i reconnects|i data]; cbn [happen].
  - apply set_eventLevel_one_live, Hlive.
  - apply set_eventLevel_one_live, Hlive.
  - destruct (sources v !! i) as [src|] eqn:Hsrc; cbn; [|exact Hlive].
    destruct (readyState src) eqn:Hst; try exact Hlive.
    apply callback_one_live, set_readyState_one_live; [exact Hlive|].
    rewrite Hsrc. intros ? [= <-]. congruence.
  - destruct (sources v !! i) as [src|] eqn:Hsrc; cbn; [|exact Hlive].
    destruct (readyState src) eqn:Hst; try exact Hlive;
      (apply set_readyState_one_live; [exact Hlive|]);
      rewrite Hsrc; intros ? [= <-]; congruence.
  - destruct (sources v !! i) as [src|] eqn:Hsrc; cbn; [|exact Hlive].
    destruct (readyState src); exact Hlive.
Qed.

(** Changing the level never leaves two streams running: whatever levels
    are selected and whatever the browser does with the sources, every event
    source that is connecting or open is the current one, [es]; all earlier
    ones are closed. *)
Theorem one_live_event_source (storage : gmap string string) (hs : list Happening) :
  forall i src,
    sources (view storage hs) !! i = Some src ->
    readyState src <> CLOSED ->
    es (view storage hs) = Some i.
Proof.
  change (one_live (view storage hs)).
  induction hs as [|h hs IH] using rev_ind.
  - intros i src Hsrc. cbn in Hsrc. discriminate.
  - rewrite view_snoc. apply happen_one_live, IH.
Qed.

(** *** The saved level *)

Definition level_saved (v : Viewer) : Prop :=
  forall l, eventLevel v = Some l -> l <> "" -> localStorage v !! "eventLevel" = Some l.

Lemma level_block_storage (v : Viewer) :
  localStorage (level_block v)
  = match eventLevel v with
    | Some l => if Js.truthy (Some l) then saveEventLevel l (localStorage v)
                else localStorage v
    | None => localStorage v
    end.
Proof.
  unfold level_block. destruct (eventLevel v) as [l|]; [|reflexivity].
  destruct (Js.truthy (Some l)); [|reflexivity].
  unfold stream, close_current. cbn.
  destruct (es v) as [k|]; [|reflexivity].
  destruct (sources v !! k) as [srck|]; [|reflexivity].
  destruct (readyState srck); reflexivity.
Qed.

Lemma set_eventLevel_saved (lvl : string) (v : Viewer) :
  level_saved v -> level_saved (set_eventLevel lvl v).
Proof.
  intros Hsaved. unfold set_eventLevel.
  destruct (bool_decide (eventLevel v = Some lvl)); [exact Hsaved|].
  intros l Hl Hne.
  match type of Hl with eventLevel (level_block ?w) = _ =>
    destruct (level_block_shown w) as (_ & _ & Hlvl);
    rewrite Hlvl in Hl; rewrite (level_block_storage w)
  end.
  cbn [filter_block eventLevel localStorage] in *. injection Hl as ->.
  rewrite (proj2 (truthy_Some l) Hne). apply lookup_insert_eq.
Qed.

Lemma happen_saved (v : Viewer) (h : Happening) :
  level_saved v -> level_saved (happen v h).
Proof.
  intros Hsaved. destruct h as [|lvl|i|i reconnects|i data]; cbn [happen];
    try apply set_eventLevel_saved; try exact Hsaved;
    destruct (readyState <$> sources v !! i) as [[| |]|]; try exact Hsaved;
    unfold callback, filter_block, level_saved; cbn;
    try (destruct (set_readyState_shown i OPEN v) as (_ & _ & -> & -> & _));
    try (destruct (set_readyState_shown i (if reconnects then CONNECTING else CLOSED) v)
           as (_ & _ & -> & -> & _));
    exact Hsaved.
Qed.

(** The level survives a reload.  With nothing saved, or the empty string
    saved, the level read on mount is ["Info"]; and at any time the saved
    level is the one in force (when that is not empty), so that mounting
    the viewer again with the storage as it stands restores it. *)
Theorem saved_level_restored :
  (forall storage,
      storage !! "eventLevel" = None \/ storage !! "eventLevel" = Some "" ->
      readSavedEventLevel storage = "Info")
  /\ (forall storage hs l,
        eventLevel (view storage hs) = Some l -> l <> "" ->
        readSavedEventLevel (localStorage (view storage hs)) = l
        /\ eventLevel (view (localStorage (view storage hs)) [mounted]) = Some l).
Proof.
  split.
  - intros storage [Hnone|Hempty]; unfold readSavedEventLevel;
      [rewrite Hnone | rewrite Hempty]; reflexivity.
  - intros storage hs l Hl Hne.
    assert (Hsaved : level_saved (view storage hs)).
    { clear Hl. induction hs as [|h hs IH] using rev_ind.
      - intros l0 Hl0. cbn in Hl0. discriminate.
      - rewrite view_snoc. apply happen_saved, IH. }
    assert (Hread : readSavedEventLevel (localStorage (view storage hs)) = l).
    { unfold readSavedEventLevel. rewrite (Hsaved l Hl Hne).
      rewrite (proj2 (truthy_Some l) Hne). reflexivity. }
    split; [exact Hread|].
    unfold view at 1. cbn [fold_left happen mount localStorage]. rewrite Hread.
    unfold set_eventLevel. rewrite bool_decide_eq_false_2 by discriminate.
    match goal with |- eventLevel (level_block ?w) = _ =>
      destruct (level_block_shown w) as (_ & _ & ->) end.
    reflexivity.
Qed.

(** A saved level that the first block does not know (anything but the four
    names, for instance a level written in lower case) is taken over on
    mount as it is; as long as no level is selected, nothing is ever shown,
    whatever the stream delivers. *)
Theorem unknown_saved_level_shows_nothing (storage : gmap string string)
    (hs : list Happening) (l : string) :
  storage !! "eventLevel" = Some l -> l <> "" -> ~ In l filter_levels ->
  Forall (fun h => forall lvl, h <> selected lvl) hs ->
  eventsFiltered (view storage hs) = []
  /\ (In mounted hs -> eventLevel (view storage hs) = Some l).
Proof.
  intros Hstored Hne Hunknown Hnone.
  assert (Hvisible : forall all shown, visible (Some l) all shown = shown).
  { intros all shown. unfold visible.
    repeat match goal with
           | |- context [String.eqb l ?k] =>
               destruct (String.eqb_spec l k) as [->|_];
               [exfalso; apply Hunknown; cbn; tauto|]
           end. reflexivity. }
  assert (Hinv : (eventLevel (view storage hs) = None
                  \/ eventLevel (view storage hs) = Some l)
                 /\ localStorage (view storage hs) !! "eventLevel" = Some l
                 /\ eventsFiltered (view storage hs) = []
                 /\ (In mounted hs -> eventLevel (view storage hs) = Some l)).
  { induction hs as [|h hs IH] using rev_ind.
    - cbn. repeat split; auto. intros [].
    - apply Forall_app in Hnone as [Hhs Hh]. apply Forall_cons_1 in Hh as [Hh _].
      destruct (IH Hhs) as (Hlvl & Hsto & Hshown & Hmounted). clear IH.
      rewrite view_snoc.
      assert (Hkeep : forall w,
                 eventLevel w = eventLevel (view storage hs) ->
                 eventsFiltered w = [] ->
                 eventsFiltered (filter_block w) = []).
      { intros w Hw Hempty. unfold filter_block. cbn. rewrite Hw, Hempty.
        destruct Hlvl as [Hunset|Hset]; [rewrite Hunset|rewrite Hset];
          [reflexivity|apply Hvisible]. }
      destruct h as [|lvl|i|i reconnects|i data]; cbn [happen].
      + assert (Hread : readSavedEventLevel (localStorage (view storage hs)) = l).
        { unfold readSavedEventLevel. rewrite Hsto, (proj2 (truthy_Some l) Hne).
          reflexivity. }
        rewrite Hread. unfold set_eventLevel.
        destruct (bool_decide_reflect (eventLevel (view storage hs) = Some l))
          as [Hsame|Hdiff].
        * repeat split; auto.
        * match goal with |- context [level_block ?w] =>
            destruct (level_block_shown w) as (_ & Hf & Hl);
            pose proof (level_block_storage w) as Hs
          end.
          rewrite Hl, Hs, Hf.
          cbn [filter_block eventLevel localStorage eventsFiltered events].
          rewrite (proj2 (truthy_Some l) Hne).
          repeat split; auto.
          -- apply lookup_insert_eq.
          -- rewrite Hshown. apply Hvisible.
      + exfalso. exact (Hh lvl eq_refl).
      + assert (Hsame : In mounted (hs ++ [opened i]) -> In mounted hs).
        { rewrite in_app_iff. cbn. intros [?|[?|[]]]; [assumption|discriminate]. }
        destruct (readyState <$> sources (view storage hs) !! i) as [[| |]|];
          try (repeat split; auto; fail).
        destruct (set_readyState_shown i OPEN (view storage hs))
          as (_ & Hf & Hl & Hs & _).
        unfold callback. split; [cbn; rewrite Hl; exact Hlvl|].
        split; [cbn; rewrite Hs; exact Hsto|].
        split; [apply Hkeep; cbn; congruence|].
        intros Hm. cbn. rewrite Hl. auto.
      + assert (Hsame : In mounted (hs ++ [failed i reconnects]) -> In mounted hs).
        { rewrite in_app_iff. cbn. intros [?|[?|[]]]; [assumption|discriminate]. }
        destruct (readyState <$> sources (view storage hs) !! i) as [[| |]|];
          try (repeat split; auto; fail);
          destruct (set_readyState_shown i (if reconnects then CONNECTING else CLOSED)
                      (view storage hs)) as (_ & Hf & Hl & Hs & _);
          rewrite Hf, Hl, Hs; repeat split; auto.
      + assert (Hsame : In mounted (hs ++ [delivered i data]) -> In mounted hs).
        { rewrite in_app_iff. cbn. intros [?|[?|[]]]; [assumption|discriminate]. }
        destruct (readyState <$> sources (view storage hs) !! i) as [[| |]|];
          try (repeat split; auto; fail).
        unfold callback. split; [exact Hlvl|]. split; [exact Hsto|].
        split; [apply Hkeep; [reflexivity|exact Hshown]|]. cbn. auto. }
  destruct Hinv as (_ & _ & Hshown & Hmounted). split; assumption.
Qed.

End Viewer.

(** *** The width classes of the panel *)

Definition widthDefault (collapsed wide isHover : bool) : bool :=
  negb collapsed && negb wide || isHover.

Definition widthCollapsed (collapsed wide isHover : bool) : bool :=
  collapsed && negb wide && negb isHover.

Definition widthWide (collapsed wide : bool) : bool :=
  negb collapsed && wide.

Arguments es {Event} _.
Arguments sources {Event} _.
Arguments events {Event} _.
Arguments eventsFiltered {Event} _.
Arguments eventLevel {Event} _.
Arguments localStorage {Event} _.

(** Events as pairs of their [typ] and [level], for the instances below;
    a message's data is taken as the level of an event of type
    ["Event"]. *)
Definition sample_view (storage : gmap string string)
    (hs : list Happening) : Viewer (string * string) :=
  view (string * string) (fun data => Some ("Event", data)) fst snd
    (fun lvl => lvl) storage hs.

Lemma one_live_event_source_witness :
  es (sample_view ∅ [mounted; opened 0; selected "Critical"]) = Some 1%nat.
Proof.
  apply (one_live_event_source (string * string) (fun data => Some ("Event", data))
           fst snd (fun lvl => lvl) ∅ [mounted; opened 0; selected "Critical"] 1%nat
           {| url := "/auth/v1/events/stream?latest=50&level=Critical";
              readyState := CONNECTING |});
    [reflexivity | discriminate].
Defined.

Lemma unknown_saved_level_shows_nothing_witness :
  events (sample_view {[ "eventLevel" := "info" ]}
            [mounted; opened 0; delivered 0 "critical"]) = [("Event", "critical")]
  /\ eventsFiltered (sample_view {[ "eventLevel" := "info" ]}
                       [mounted; opened 0; delivered 0 "critical"]) = [].
Proof.
  split; [reflexivity|].
  apply (unknown_saved_level_shows_nothing (string * string)
           (fun data => Some ("Event", data)) fst snd (fun lvl => lvl)
           {[ "eventLevel" := "info" ]} [mounted; opened 0; delivered 0 "critical"] "info").
  - reflexivity.
  - discriminate.
  - cbn. intros [H|[H|[H|[H|[]]]]]; discriminate.
  - repeat constructor; discriminate.
Defined.

Lemma shown_events_agree_witness :
  eventsFiltered (sample_view ∅ [mounted; opened 0; delivered 0 "info";
                                 delivered 0 "critical"; selected "Warning"])
  = [("Event", "critical")].
Proof.
  destruct (shown_events_agree (string * string) (fun data => Some ("Event", data))
              fst snd (fun lvl => lvl) ∅
              [mounted; opened 0; delivered 0 "info"; delivered 0 "critical";
               selected "Warning"]) as (_ & _ & Hknown).
  destruct (Hknown "Warning") as [Hshown _]; [reflexivity | cbn; tauto |].
  exact Hshown.
Defined.

Lemma saved_level_restored_witness :
  readSavedEventLevel
    (localStorage (sample_view ∅ [mounted; selected "Warning"])) = "Warning".
Proof.
  destruct (saved_level_restored (string * string) (fun data => Some ("Event", data))
              fst snd (fun lvl => lvl)) as (_ & Hrestored).
  destruct (Hrestored ∅ [mounted; selected "Warning"] "Warning") as [Hread _];
    [reflexivity | discriminate | exact Hread].
Defined.

(** The three width classes do not partition the states of the panel.  The
    collapsed width excludes the other two and hovering always gives the
    default width; but a panel that is collapsed and wide, and not hovered,
    has none of the three, and one that is wide, not collapsed and hovered
    has the default and the wide width together. *)
Theorem width_classes (collapsed wide isHover : bool) :
  (widthCollapsed collapsed wide isHover = true ->
   widthDefault collapsed wide isHover = false /\ widthWide collapsed wide = false)
  /\ (isHover = true -> widthDefault collapsed wide isHover = true)
  /\ (widthDefault collapsed wide isHover = false
      /\ widthCollapsed collapsed wide isHover = false
      /\ widthWide collapsed wide = false
      <-> collapsed = true /\ wide = true /\ isHover = false)
  /\ (widthDefault collapsed wide isHover = true /\ widthWide collapsed wide = true
      <-> collapsed = false /\ wide = true /\ isHover = true).
Proof.
  destruct collapsed, wide, isHover; cbn; intuition congruence.
Qed.

End EventViewer.

(** ** The order-by control ([OrderBy.svelte], first document) *)
Module OrderBy.

Section Component.

Variable Item : Type.

(** A comparator, taken integer-valued: negative for "before", positive for
    "after". *)
Definition Compare : Type := Item -> Item -> Z.

(** An entry of [options]: [opt.label] and [opt.callback], which may be
    missing. *)
Record OrderOption : Type := {
  label : string;
  opt_callback : option Compare;
}.

(** The props and variables of the component; [resItems] is [None] while
    undefined. *)
Record State : Type := {
  items : list Item;
  resItems : option (list Item);
  options : list OrderOption;
  firstDirReverse : bool;
  selected : string;
  direction : Z;
  callback : option Compare;
}.

(** [arr.sort(compare)] for a consistent comparator: the stable sort, an
    element moving behind those it compares greater than. *)
Fixpoint insert (compare : Compare) (x : Item) (sorted : list Item) : list Item :=
  match sorted with
  | [] => [x]
  | y :: rest =>
      if 0 <? compare x y then y :: insert compare x rest else x :: y :: rest
  end.

Definition sort (compare : Compare) (arr : list Item) : list Item :=
  foldr (insert compare) [] arr.

(** The loop of [extractCallback]: the first option with the label. *)
Fixpoint first_labelled (lbl : string) (opts : list OrderOption) : option OrderOption :=
  match opts with
  | [] => None
  | opt :: rest => if String.eqb (label opt) lbl then Some opt else first_labelled lbl rest
  end.

Definition extractCallback (s : State) : State :=
  match first_labelled (selected s) (options s) with
  | Some opt =>
      {| items := items s; resItems := resItems s; options := options s;
         firstDirReverse := firstDirReverse s; selected := selected s;
         direction := direction s; callback := opt_callback opt |}
  | None => s
  end.

Definition orderItems (s : State) : State :=
  match callback s with
  | Some cb =>
      {| items := items s;
         resItems := Some (sort (fun a b => cb a b * direction s) (items s));
         options := options s; firstDirReverse := firstDirReverse s;
         selected := selected s; direction := direction s; callback := callback s |}
  | None => s
  end.

Definition switchDirection (s : State) : State :=
  orderItems
    {| items := items s; resItems := resItems s; options := options s;
       firstDirReverse := firstDirReverse s; selected := selected s;
       direction := direction s * -1; callback := callback s |}.

(** An assignment to [selected] and the [run] block that follows a change
    of it. *)
Definition set_selected (lbl : string) (s : State) : State :=
  if String.eqb lbl (selected s) then s
  else
    let s :=
      {| items := items s; resItems := resItems s; options := options s;
         firstDirReverse := firstDirReverse s; selected := lbl;
         direction := direction s; callback := callback s |} in
    if Js.truthy (Some lbl) then orderItems (extractCallback s) else s.

(** The component as created from its props, and [onMount]. *)
Definition create (its : list Item) (res : option (list Item))
    (opts : list OrderOption) (reverse : bool) : State :=
  {| items := its; resItems := res; options := opts; firstDirReverse := reverse;
     selected := ""; direction := 1; callback := None |}.

Definition onMount (s : State) : State :=
  let s :=
    match options s with
    | opt :: _ =>
        extractCallback
          {| items := items s; resItems := resItems s; options := options s;
             firstDirReverse := firstDirReverse s; selected := label opt;
             direction := direction s; callback := callback s |}
    | [] => s
    end in
  let s := if firstDirReverse s then switchDirection s else s in
  let s := orderItems s in
  if Js.truthy (Some (selected s)) then orderItems (extractCallback s) else s.

(** What happens after mounting: the parent passes new items, a label is
    selected, the direction control is clicked. *)
Inductive Event : Type :=
| items_changed (its : list Item)
| label_selected (lbl : string)
| direction_clicked.

Definition dispatch (s : State) (ev : Event) : State :=
  match ev with
  | items_changed its =>
      orderItems
        {| items := its; resItems := resItems s; options := options s;
           firstDirReverse := firstDirReverse s; selected := selected s;
           direction := direction s; callback := callback s |}
  | label_selected lbl => set_selected lbl s
  | direction_clicked => switchDirection s
  end.

Definition run (its : list Item) (res : option (list Item))
    (opts : list OrderOption) (reverse : bool) (evs : list Event) : State :=
  fold_left dispatch evs (onMount (create its res opts reverse)).

(** *** The sort *)

Lemma insert_Permutation (compare : Compare) (x : Item) (l : list Item) :
  insert compare x l ≡ₚ x :: l.
Proof.
  induction l as [|y l IH]; cbn; [reflexivity|].
  destruct (0 <? compare x y); [|reflexivity].
  rewrite IH. apply Permutation_swap.
Qed.

Lemma sort_Permutation (compare : Compare) (l : list Item) : sort compare l ≡ₚ l.
Proof.
  induction l as [|x l IH]; cbn; [reflexivity|].
  rewrite insert_Permutation, IH. reflexivity.
Qed.

(** A consistent comparator: comparing the other way round gives the
    opposite sign, and "not after" is transitive. *)
Definition consistent (compare : Compare) : Prop :=
  (forall a b, Z.sgn (compare a b) = - Z.sgn (compare b a))
  /\ (forall a b d, compare a b <= 0 -> compare b d <= 0 -> compare a d <= 0).

Lemma insert_sorted (compare : Compare) (x : Item) (l : list Item) :
  consistent compare ->
  StronglySorted (fun a b => compare a b <= 0) l ->
  StronglySorted (fun a b => compare a b <= 0) (insert compare x l).
Proof.
  intros [Hsgn Htrans] Hsorted. induction Hsorted as [|y l Hl IH Hy]; cbn.
  - repeat constructor.
  - destruct (Z.ltb_spec 0 (compare x y)) as [Hafter|Hbefore].
    + constructor; [exact IH|].
      rewrite (insert_Permutation compare x l). constructor; [|exact Hy].
      pose proof (Hsgn x y). lia.
    + constructor; [constructor; assumption|].
      constructor; [exact Hbefore|].
      rewrite Forall_forall in *. intros z Hz. eapply Htrans; [exact Hbefore|].
      apply Hy, Hz.
Qed.

Lemma sort_sorted (compare : Compare) (l : list Item) :
  consistent compare -> StronglySorted (fun a b => compare a b <= 0) (sort compare l).
Proof.
  intros Hc. induction l as [|x l IH]; cbn; [constructor|].
  apply insert_sorted; assumption.
Qed.

Lemma consistent_direction (compare : Compare) (dir : Z) :
  consistent compare -> dir = 1 \/ dir = -1 ->
  consistent (fun a b => compare a b * dir).
Proof.
  intros [Hsgn Htrans] [-> | ->]; split.
  - intros a b. rewrite !Z.mul_1_r. apply Hsgn.
  - intros a b d. rewrite !Z.mul_1_r. apply Htrans.
  - intros a b. rewrite !Z.sgn_mul. rewrite (Hsgn a b). cbn. lia.
  - intros a b d Hab Hbd.
    pose proof (Hsgn a b). pose proof (Hsgn b d). pose proof (Hsgn a d).
    assert (Hdb : compare d b <= 0) by lia.
    assert (Hba : compare b a <= 0) by lia.
    pose proof (Htrans d b a Hdb Hba). lia.
Qed.

(** *** What the control keeps *)

(** The direction is 1 or -1, and while a comparator is in force the output
    is the sort of the current items by it, in that direction. *)
Definition ordered (s : State) : Prop :=
  (direction s = 1 \/ direction s = -1)
  /\ (forall cb, callback s = Some cb ->
      resItems s = Some (sort (fun a b => cb a b * direction s) (items s))).

Lemma orderItems_ordered (s : State) :
  direction s = 1 \/ direction s = -1 -> ordered (orderItems s).
Proof.
  intros Hdir. unfold ordered, orderItems.
  destruct (callback s) as [cb|] eqn:Hcb; cbn.
  - split; [exact Hdir|]. intros ? [= <-]. reflexivity.
  - split; [exact Hdir|]. rewrite Hcb. discriminate.
Qed.

Lemma extractCallback_direction (s : State) :
  direction (extractCallback s) = direction s.
Proof. unfold extractCallback. destruct (first_labelled _ _); reflexivity. Qed.

Lemma switchDirection_ordered (s : State) :
  direction s = 1 \/ direction s = -1 -> ordered (switchDirection s).
Proof.
  intros Hdir. unfold switchDirection. apply orderItems_ordered. cbn. lia.
Qed.

Lemma set_selected_ordered (lbl : string) (s : State) :
  ordered s -> ordered (set_selected lbl s).
Proof.
  intros Hs. unfold set_selected.
  destruct (String.eqb lbl (selected s)); [exact Hs|]. cbn zeta.
  destruct (Js.truthy (Some lbl)); [|exact Hs].
  apply orderItems_ordered. rewrite extractCallback_direction. apply Hs.
Qed.

Lemma dispatch_ordered (s : State) (ev : Event) : ordered s -> ordered (dispatch s ev).
Proof.
  intros Hs. destruct ev as [its|lbl|]; cbn [dispatch].
  - apply orderItems_ordered, Hs.
  - apply set_selected_ordered, Hs.
  - apply switchDirection_ordered, Hs.
Qed.

Lemma onMount_ordered (its : list Item) (res : option (list Item))
    (opts : list OrderOption) (reverse : bool) :
  ordered (onMount (create its res opts reverse)).
Proof.
  unfold onMount.
  set (s1 := match options (create its res opts reverse) with
             | opt :: _ => extractCallback _
             | [] => _
             end).
  assert (H1 : direction s1 = 1 \/ direction s1 = -1).
  { subst s1. cbn [options create]. destruct opts as [|opt opts]; [left; reflexivity|].
    rewrite extractCallback_direction. left. reflexivity. }
  set (s2 := if firstDirReverse s1 then switchDirection s1 else s1).
  assert (H2 : direction s2 = 1 \/ direction s2 = -1).
  { subst s2. destruct (firstDirReverse s1); [|exact H1].
    apply switchDirection_ordered, H1. }
  cbn zeta.
  destruct (Js.truthy (Some (selected (orderItems s2)))).
  - apply orderItems_ordered. rewrite extractCallback_direction.
    apply (orderItems_ordered s2 H2).
  - apply orderItems_ordered, H2.
Qed.

Lemma run_ordered (its : list Item) (res : option (list Item))
    (opts : list OrderOption) (reverse : bool) (evs : list Event) :
  ordered (run its res opts reverse evs).
Proof.
  unfold run. induction evs as [|ev evs IH] using rev_ind.
  - apply onMount_ordered.
  - rewrite fold_left_app. apply dispatch_ordered, IH.
Qed.

(** Whatever items the parent passes, whatever label is selected and however
    often the direction is switched: the direction stays 1 or -1, and while
    a comparator is in force the output [resItems] holds exactly the current
    items, reordered, none lost and none doubled; when that comparator is
    consistent the output is sorted by it in the current direction. *)
Theorem output_is_items_sorted (its : list Item) (res : option (list Item))
    (opts : list OrderOption) (reverse : bool) (evs : list Event) :
  let s := run its res opts reverse evs in
  (direction s = 1 \/ direction s = -1)
  /\ (forall cb, callback s = Some cb ->
      exists out,
        resItems s = Some out
        /\ out ≡ₚ items s
        /\ (consistent cb ->
            StronglySorted (fun a b => cb a b * direction s <= 0) out)).
Proof.
  intros s. destruct (run_ordered its res opts reverse evs) as [Hdir Hout].
  fold s in Hdir, Hout. split; [exact Hdir|].
  intros cb Hcb. eexists. split; [apply (Hout cb Hcb)|].
  split; [apply sort_Permutation|].
  intros Hc. apply (sort_sorted (fun a b => cb a b * direction s)).
  apply consistent_direction; assumption.
Qed.

(** Two clicks on the direction control change nothing. *)
Theorem direction_twice_is_identity (its : list Item) (res : option (list Item))
    (opts : list OrderOption) (reverse : bool) (evs : list Event) :
  let s := run its res opts reverse evs in
  switchDirection (switchDirection s) = s
  /\ direction (switchDirection s) = - direction s.
Proof.
  intros s. destruct (run_ordered its res opts reverse evs) as [Hdir Hout].
  fold s in Hdir, Hout. clearbody s.
  assert (Hback : direction s * -1 * -1 = direction s) by lia.
  split.
  - unfold switchDirection, orderItems. cbn.
    destruct s as [i r o f sel d [cb|]]; cbn in *.
    + rewrite Hback. rewrite (Hout cb eq_refl). reflexivity.
    + rewrite Hback. reflexivity.
  - unfold switchDirection, orderItems. cbn.
    destruct (callback s); cbn; lia.
Qed.

(** Sorted lists are unique: for an order in which two items that are each
    not after the other are the same item. *)
Lemma sorted_unique (R : Item -> Item -> Prop) (l1 : list Item) : forall l2,
  (forall a b, R a b -> R b a -> a = b) ->
  StronglySorted R l1 -> StronglySorted R l2 -> l1 ≡ₚ l2 -> l1 = l2.
Proof.
  induction l1 as [|a l1 IH]; intros l2 Hanti H1 H2 Hperm.
  - apply Permutation_nil in Hperm. congruence.
  - destruct l2 as [|b l2]; [apply Permutation_sym, Permutation_nil in Hperm; discriminate|].
    apply StronglySorted_inv in H1 as [H1 Ha]. apply StronglySorted_inv in H2 as [H2 Hb].
    rewrite Forall_forall in Ha, Hb.
    assert (Hab : a = b).
    { assert (Hin_a : a ∈ b :: l2) by (rewrite <- Hperm; left).
      assert (Hin_b : b ∈ a :: l1) by (rewrite Hperm; left).
      apply elem_of_cons in Hin_a as [?|Hin_a]; [assumption|].
      apply elem_of_cons in Hin_b as [?|Hin_b]; [congruence|].
      apply Hanti; [apply Ha, Hin_b | apply Hb, Hin_a]. }
    subst b. f_equal. apply IH; try assumption.
    eapply Permutation_cons_inv, Hperm.
Qed.

Lemma rev_sorted (R : Item -> Item -> Prop) (l : list Item) :
  StronglySorted R l -> StronglySorted (fun a b => R b a) (rev l).
Proof.
  induction 1 as [|a l Hl IH Ha]; cbn; [constructor|].
  assert (Hgen : forall l1 : list Item,
             StronglySorted (fun a b => R b a) l1 -> Forall (fun x => R a x) l1 ->
             StronglySorted (fun a b => R b a) (l1 ++ [a])).
  { induction l1 as [|x l1 IH1]; intros Hs Hf; cbn; [repeat constructor|].
    apply StronglySorted_inv in Hs as [Hs Hx]. apply Forall_cons_1 in Hf as [Hax Hf].
    constructor; [apply IH1; assumption|].
    apply Forall_app. split; [exact Hx|]. repeat constructor. exact Hax. }
  apply Hgen; [exact IH|].
  rewrite Forall_forall in *. intros x Hx. apply Ha.
  apply list_elem_of_In, in_rev, list_elem_of_In in Hx. exact Hx.
Qed.

Lemma sorted_impl (R R' : Item -> Item -> Prop) (l : list Item) :
  (forall a b, R a b -> R' a b) -> StronglySorted R l -> StronglySorted R' l.
Proof.
  intros Himpl. induction 1 as [|a l Hl IH Ha]; constructor; [exact IH|].
  eapply Forall_impl; [exact Ha|]. intros x. apply Himpl.
Qed.

(** A click on the direction control reverses the output, when the
    comparator in force is consistent and tells any two different items
    apart. *)
Theorem direction_click_reverses (its : list Item) (res : option (list Item))
    (opts : list OrderOption) (reverse : bool) (evs : list Event)
    (cb : Compare) (out : list Item) :
  let s := run its res opts reverse evs in
  callback s = Some cb -> consistent cb ->
  (forall a b, cb a b = 0 -> a = b) ->
  resItems s = Some out ->
  resItems (dispatch s direction_clicked) = Some (rev out).
Proof.
  intros s Hcb Hc Hstrict Hres.
  destruct (run_ordered its res opts reverse evs) as [Hdir Hout].
  fold s in Hdir, Hout. rewrite (Hout cb Hcb) in Hres. injection Hres as <-.
  cbn [dispatch]. unfold switchDirection, orderItems. cbn. rewrite Hcb. cbn. f_equal.
  apply (sorted_unique (fun a b => cb a b * (direction s * -1) <= 0)).
  - intros a b Hab Hba. apply Hstrict.
    destruct Hc as [Hsgn _]. pose proof (Hsgn a b). destruct Hdir as [Hd|Hd]; rewrite Hd in *; lia.
  - apply sort_sorted, consistent_direction; [exact Hc | lia].
  - assert (Hflip : StronglySorted (fun a b => cb b a * direction s <= 0)
                      (rev (sort (fun a b => cb a b * direction s) (items s)))).
    { apply (rev_sorted (fun a b => cb a b * direction s <= 0)).
      apply sort_sorted, consistent_direction; assumption. }
    eapply sorted_impl; [|exact Hflip]. cbn. intros a b Hba.
    destruct Hc as [Hsgn _]. pose proof (Hsgn a b).
    destruct Hdir as [Hd|Hd]; rewrite Hd in *; lia.
  - transitivity (items s); [apply sort_Permutation|].
    symmetry. etransitivity; [symmetry; apply Permutation_rev | apply sort_Permutation].
Qed.

(** Where the first option with a label stands. *)
Lemma first_labelled_spec (lbl : string) (opts : list OrderOption) :
  match first_labelled lbl opts with
  | Some opt =>
      exists before after,
        opts = before ++ opt :: after
        /\ label opt = lbl
        /\ Forall (fun o => label o <> lbl) before
  | None => Forall (fun o => label o <> lbl) opts
  end.
Proof.
  induction opts as [|opt opts IH]; cbn; [constructor|].
  destruct (String.eqb_spec (label opt) lbl) as [Heq|Hne].
  - exists [], opts. repeat split; [exact Heq | constructor].
  - destruct (first_labelled lbl opts) as [found|].
    + destruct IH as (before & after & -> & Hlbl & Hbefore).
      exists (opt :: before), after. repeat split; [exact Hlbl|].
      constructor; assumption.
    + constructor; assumption.
Qed.

(** Selecting a new, non-empty label puts in force what the first option
    with that label carries, also when that option carries no comparator;
    when no option has the label the comparator in force stays.  Items and
    direction are not touched. *)
Theorem selection_takes_first_option (s : State) (lbl : string) :
  lbl <> "" -> lbl <> selected s ->
  let s' := dispatch s (label_selected lbl) in
  selected s' = lbl /\ items s' = items s /\ direction s' = direction s
  /\ ((exists before opt after,
         options s = before ++ opt :: after /\ label opt = lbl
         /\ Forall (fun o => label o <> lbl) before
         /\ callback s' = opt_callback opt)
      \/ (Forall (fun o => label o <> lbl) (options s) /\ callback s' = callback s)).
Proof.
  intros Hfilled Hnew s'. subst s'. cbn [dispatch]. unfold set_selected.
  destruct (String.eqb_spec lbl (selected s)) as [?|_]; [contradiction|]. cbn zeta.
  unfold Js.truthy. destruct (String.eqb_spec lbl "") as [?|_]; [contradiction|].
  cbn [negb]. unfold orderItems, extractCallback. cbn [selected options].
  pose proof (first_labelled_spec lbl (options s)) as Hfirst.
  destruct (first_labelled lbl (options s)) as [opt|].
  - destruct Hfirst as (before & after & Hopts & Hlbl & Hbefore). cbn.
    destruct (opt_callback opt) as [cb|] eqn:Hcb; cbn;
      (repeat split; try reflexivity; left; exists before, opt, after;
       repeat split; try assumption; symmetry; exact Hcb).
  - destruct (callback s) eqn:Hcb; cbn; repeat split; try reflexivity;
      right; split; try assumption; congruence.
Qed.

End Component.

Arguments label {Item} _.
Arguments opt_callback {Item} _.
Arguments items {Item} _.
Arguments resItems {Item} _.
Arguments options {Item} _.
Arguments firstDirReverse {Item} _.
Arguments selected {Item} _.
Arguments direction {Item} _.
Arguments callback {Item} _.
Arguments items_changed {Item} _.
Arguments label_selected {Item} _.
Arguments direction_clicked {Item}.

(** Numbers ordered by their difference, and by their last digit, for the
    instances below. *)
Definition by_value : list (OrderOption Z) :=
  [ {| label := "value"; opt_callback := Some Z.sub |};
    {| label := "last digit"; opt_callback := Some (fun a b => a mod 10 - b mod 10) |};
    {| label := "value"; opt_callback := None |} ].

Lemma by_value_consistent : consistent Z Z.sub.
Proof. split; intros; lia. Qed.

Lemma output_is_items_sorted_witness :
  exists out,
    resItems (run Z [30; 12; 21] None by_value false
                [label_selected "last digit"; items_changed [30; 12; 21; 5];
                 direction_clicked]) = Some out
    /\ out ≡ₚ [30; 12; 21; 5]
    /\ out = [5; 12; 21; 30].
Proof.
  destruct (output_is_items_sorted Z [30; 12; 21] None by_value false
              [label_selected "last digit"; items_changed [30; 12; 21; 5];
               direction_clicked]) as [_ Hout].
  destruct (Hout (fun a b => a mod 10 - b mod 10) eq_refl) as (out & Hres & Hperm & _).
  exists out. split; [exact Hres|]. split; [exact Hperm|].
  vm_compute in Hres. injection Hres as <-. reflexivity.
Defined.

Lemma direction_click_reverses_witness :
  resItems (dispatch Z (run Z [30; 12; 21] None by_value false []) direction_clicked)
  = Some [30; 21; 12].
Proof.
  apply (direction_click_reverses Z [30; 12; 21] None by_value false [] Z.sub [12; 21; 30]).
  - reflexivity.
  - exact by_value_consistent.
  - intros a b Hab. lia.
  - reflexivity.
Defined.

Lemma selection_takes_first_option_witness :
  selected (dispatch Z (run Z [30; 12; 21] None by_value false [])
              (label_selected "last digit")) = "last digit".
Proof.
  apply (selection_takes_first_option Z (run Z [30; 12; 21] None by_value false [])
           "last digit"); discriminate.
Defined.

End OrderBy.

(** ** The text-safe binary encoding of the credential ceremony *)
Module Base64Url.

(** The 64 characters of the URL-safe alphabet, in the order of their
    values. *)
Definition alphabet : list ascii :=
  list_ascii_of_string
    "ABCDEFGHIJKLMNOPQRSTUVWXYZabcdefghijklmnopqrstuvwxyz0123456789-_".

Definition char_of_sextet (v : Z) : ascii :=
  nth (Z.to_nat v) alphabet "A"%char.

Fixpoint index_of (c : ascii) (chars : list ascii) : option Z :=
  match chars with
  | [] => None
  | x :: rest => if Ascii.eqb c x then Some 0 else Z.succ <$> index_of c rest
  end.

(** [None] for a character outside the alphabet (the decoder throws). *)
Definition sextet_of_char (c : ascii) : option Z := index_of c alphabet.

Definition in_alphabet (s : string) : bool :=
  forallb (fun c => bool_decide (is_Some (sextet_of_char c))) (list_ascii_of_string s).

Definition byte_to_Z (b : Byte.byte) : Z := Z.of_N (Byte.to_N b).

Definition byte_of_Z (z : Z) : Byte.byte :=
  default Byte.x00 (Byte.of_N (Z.to_N (z mod 256))).

(** Three bytes make four 6-bit values; a last group of one or two bytes
    makes two or three, its unused low bits zero, and no padding character
    is written. *)
Fixpoint encode_bytes (buf : list Z) : list Z :=
  match buf with
  | a :: b :: c :: rest =>
      a / 4 :: (a mod 4) * 16 + b / 16 :: (b mod 16) * 4 + c / 64 :: c mod 64
        :: encode_bytes rest
  | [a; b] => [a / 4; (a mod 4) * 16 + b / 16; (b mod 16) * 4]
  | [a] => [a / 4; (a mod 4) * 16]
  | [] => []
  end.

(** Four 6-bit values make three bytes; a last group of three or two makes
    two bytes or one, the bits left over being dropped; a last group of one
    character is no encoding of anything and the decoder throws. *)
Fixpoint decode_sextets (vs : list Z) : option (list Z) :=
  match vs with
  | w :: x :: y :: z :: rest =>
      match decode_sextets rest with
      | Some bytes =>
          Some (w * 4 + x / 16 :: (x mod 16) * 16 + y / 4 :: (y mod 4) * 64 + z :: bytes)
      | None => None
      end
  | [w; x; y] => Some [w * 4 + x / 16; (x mod 16) * 16 + y / 4]
  | [w; x] => Some [w * 4 + x / 16]
  | [_] => None
  | [] => Some []
  end.

(** Modelled from the spec: [arrBufToBase64UrlSafe] of [utils/helpers.js],
    which [OrderBy.svelte] imports and which is not among the sources.  The
    spec calls the wire form a text-safe binary encoding, "a reversible
    mapping of raw binary data into characters safe for transport in
    URLs/JSON"; the helper's name fixes it as base64 over the URL-safe
    alphabet, written here without padding. *)
Definition arrBufToBase64UrlSafe (buf : list Byte.byte) : string :=
  string_of_list_ascii (char_of_sextet <$> encode_bytes (byte_to_Z <$> buf)).

(** Modelled from the spec: [base64UrlSafeToArrBuf] of [utils/helpers.js],
    the decoder of the same encoding; [None] when it throws. *)
Definition base64UrlSafeToArrBuf (s : string) : option (list Byte.byte) :=
  match mapM sextet_of_char (list_ascii_of_string s) with
  | Some vs =>
      match decode_sextets vs with
      | Some bytes => Some (byte_of_Z <$> bytes)
      | None => None
      end
  | None => None
  end.

(** Decoding a text and encoding the result again; [None] when the decoder
    throws. *)
Definition reencode (s : string) : option string :=
  arrBufToBase64UrlSafe <$> base64UrlSafeToArrBuf s.

(** *** Round trip *)

Definition is_byte (z : Z) : Prop := 0 <= z < 256.
Definition is_sextet (v : Z) : Prop := 0 <= v < 64.

Example encode_sample :
  arrBufToBase64UrlSafe [Byte.x66; Byte.x6f; Byte.xfb; Byte.xff] = "Zm_7_w".
Proof. reflexivity. Qed.

Example decode_sample :
  base64UrlSafeToArrBuf "Zm_7_w" = Some [Byte.x66; Byte.x6f; Byte.xfb; Byte.xff].
Proof. reflexivity. Qed.

Lemma byte_of_to_Z (b : Byte.byte) : byte_of_Z (byte_to_Z b) = b.
Proof. destruct b; reflexivity. Qed.

Lemma byte_to_Z_is_byte (b : Byte.byte) : is_byte (byte_to_Z b).
Proof.
  unfold is_byte, byte_to_Z. pose proof (Byte.to_N_bounded b). lia.
Qed.

Lemma sextet_of_char_of_sextet (v : Z) :
  is_sextet v -> sextet_of_char (char_of_sextet v) = Some v.
Proof.
  intros [Hlo Hhi]. unfold char_of_sextet.
  rewrite <- (Z2Nat.id v Hlo) at 2.
  assert (Hn : (Z.to_nat v < 64)%nat) by lia.
  revert Hn. generalize (Z.to_nat v) as n. intros n Hn.
  do 64 (destruct n as [|n]; [reflexivity|]). lia.
Qed.

(** Lists are consumed three bytes at a time. *)
Lemma list_ind_by_3 {A : Type} (P : list A -> Prop) :
  P [] -> (forall a, P [a]) -> (forall a b, P [a; b]) ->
  (forall a b c rest, P rest -> P (a :: b :: c :: rest)) ->
  forall l, P l.
Proof.
  intros H0 H1 H2 H3 l.
  cut (P l /\ (forall a, P (a :: l)) /\ (forall a b, P (a :: b :: l))).
  { intros [Hl _]. exact Hl. }
  induction l as [|x l (Hl & Hl1 & Hl2)].
  - auto.
  - repeat split; auto.
Qed.

Lemma encode_bytes_sextets (buf : list Z) :
  Forall is_byte buf -> Forall is_sextet (encode_bytes buf).
Proof.
  induction buf as [|a|a b|a b c rest IH] using list_ind_by_3; intros Hbuf;
    cbn [encode_bytes].
  - constructor.
  - apply Forall_cons_1 in Hbuf as [Ha _]. unfold is_byte, is_sextet in *.
    repeat constructor; Z.div_mod_to_equations; lia.
  - apply Forall_cons_1 in Hbuf as [Ha Hbuf].
    apply Forall_cons_1 in Hbuf as [Hb _]. unfold is_byte, is_sextet in *.
    repeat constructor; Z.div_mod_to_equations; lia.
  - apply Forall_cons_1 in Hbuf as [Ha Hbuf].
    apply Forall_cons_1 in Hbuf as [Hb Hbuf].
    apply Forall_cons_1 in Hbuf as [Hc Hrest].
    repeat (apply Forall_cons; split); [..|exact (IH Hrest)];
      unfold is_byte, is_sextet in *; Z.div_mod_to_equations; lia.
Qed.

Lemma decode_encode_bytes (buf : list Z) :
  Forall is_byte buf -> decode_sextets (encode_bytes buf) = Some buf.
Proof.
  induction buf as [|a|a b|a b c rest IH] using list_ind_by_3; intros Hbuf;
    cbn [encode_bytes decode_sextets].
  - reflexivity.
  - apply Forall_cons_1 in Hbuf as [Ha _]. unfold is_byte in Ha.
    do 2 f_equal. Z.div_mod_to_equations; lia.
  - apply Forall_cons_1 in Hbuf as [Ha Hbuf].
    apply Forall_cons_1 in Hbuf as [Hb _]. unfold is_byte in *.
    f_equal. f_equal; [|f_equal]; Z.div_mod_to_equations; lia.
  - apply Forall_cons_1 in Hbuf as [Ha Hbuf].
    apply Forall_cons_1 in Hbuf as [Hb Hbuf].
    apply Forall_cons_1 in Hbuf as [Hc Hrest].
    rewrite (IH Hrest). unfold is_byte in *.
    f_equal. f_equal; [|f_equal; [|f_equal]]; Z.div_mod_to_equations; lia.
Qed.

Lemma mapM_sextet_of_char (vs : list Z) :
  Forall is_sextet vs -> mapM sextet_of_char (char_of_sextet <$> vs) = Some vs.
Proof.
  intros Hvs. apply mapM_Some. induction Hvs as [|v vs Hv _ IH]; cbn.
  - constructor.
  - constructor; [apply sextet_of_char_of_sextet, Hv | exact IH].
Qed.

Lemma decode_encode (buf : list Byte.byte) :
  base64UrlSafeToArrBuf (arrBufToBase64UrlSafe buf) = Some buf.
Proof.
  assert (Hbytes : Forall is_byte (byte_to_Z <$> buf)).
  { apply Forall_fmap, Forall_forall. intros b _. apply byte_to_Z_is_byte. }
  unfold base64UrlSafeToArrBuf, arrBufToBase64UrlSafe.
  rewrite list_ascii_of_string_of_list_ascii.
  rewrite (mapM_sextet_of_char _ (encode_bytes_sextets _ Hbytes)).
  rewrite (decode_encode_bytes _ Hbytes).
  f_equal. rewrite <- list_fmap_compose.
  rewrite <- (list_fmap_id buf) at 2.
  apply list_fmap_ext. intros i b _. apply byte_of_to_Z.
Qed.

(** The encoder writes characters of the alphabet only. *)
Lemma encode_in_alphabet (buf : list Byte.byte) :
  in_alphabet (arrBufToBase64UrlSafe buf) = true.
Proof.
  assert (Hvs : Forall is_sextet (encode_bytes (byte_to_Z <$> buf))).
  { apply encode_bytes_sextets, Forall_fmap, Forall_forall.
    intros b _. apply byte_to_Z_is_byte. }
  unfold in_alphabet, arrBufToBase64UrlSafe.
  rewrite list_ascii_of_string_of_list_ascii.
  apply forallb_forall. intros ch Hch.
  apply in_map_iff in Hch as (v & <- & Hv).
  rewrite Forall_forall in Hvs. apply list_elem_of_In, Hvs in Hv.
  rewrite (sextet_of_char_of_sextet v Hv). reflexivity.
Qed.

(** C8, as stated: every string over the alphabet survives decoding and
    encoding again.  It fails at ["QR"]: the two characters carry twelve
    bits, the decoder keeps the first eight (the byte 0x41) and drops the
    other four, which are not zero, and the encoder writes that byte as
    ["QQ"]. *)
Lemma reencode_not_identity :
  in_alphabet "QR" = true
  /\ base64UrlSafeToArrBuf "QR" = Some [Byte.x41]
  /\ reencode "QR" = Some "QQ"
  /\ reencode "QR" <> Some "QR".
Proof.
  repeat split; try reflexivity. vm_compute. discriminate.
Qed.

End Base64Url.

(** ** The credential ceremony adapter: the conversions of
    [handleRegisterPasskey] *)
Module Ceremony.
Import Base64Url.

(** WebAuthn data: [A] is [string] on the wire and [list Byte.byte] for the
    browser's credentials engine. *)

Record CredentialDescriptor (A : Type) : Type := {
  cred_id : A;
  cred_type : string;
}.
Arguments cred_id {A} _.
Arguments cred_type {A} _.

Record PublicKeyOptions (A : Type) : Type := {
  pk_challenge : A;
  pk_user_id : A;
  pk_excludeCredentials : option (list (CredentialDescriptor A));
  pk_userVerification : string;
}.
Arguments pk_challenge {A} _.
Arguments pk_user_id {A} _.
Arguments pk_excludeCredentials {A} _.
Arguments pk_userVerification {A} _.

Record PublicKeyCredential (A : Type) : Type := {
  pkc_id : string;
  rawId : A;
  attestationObject : A;
  clientDataJSON : A;
  pkc_type : string;
}.
Arguments pkc_id {A} _.
Arguments rawId {A} _.
Arguments attestationObject {A} _.
Arguments clientDataJSON {A} _.
Arguments pkc_type {A} _.

Definition decode_descriptor (cred : CredentialDescriptor string)
    : option (CredentialDescriptor (list Byte.byte)) :=
  match base64UrlSafeToArrBuf (cred_id cred) with
  | Some id => Some {| cred_id := id; cred_type := cred_type cred |}
  | None => None
  end.

(** The challenge as the credentials engine needs it: user verification
    forced to ["required"], the binary fields decoded.  [None] when a
    decoder throws. *)
Definition decode_challenge (pk : PublicKeyOptions string)
    : option (PublicKeyOptions (list Byte.byte)) :=
  match base64UrlSafeToArrBuf (pk_challenge pk),
        base64UrlSafeToArrBuf (pk_user_id pk) with
  | Some challenge, Some user =>
      match pk_excludeCredentials pk with
      | None =>
          Some {| pk_challenge := challenge; pk_user_id := user;
                  pk_excludeCredentials := None;
                  pk_userVerification := "required" |}
      | Some creds =>
          match mapM decode_descriptor creds with
          | Some decoded =>
              Some {| pk_challenge := challenge; pk_user_id := user;
                      pk_excludeCredentials := Some decoded;
                      pk_userVerification := "required" |}
          | None => None
          end
      end
  | _, _ => None
  end.

(** The credential as the backend expects it. *)
Definition encode_credential (challengePk : PublicKeyCredential (list Byte.byte))
    : PublicKeyCredential string :=
  {| pkc_id := pkc_id challengePk;
     rawId := arrBufToBase64UrlSafe (rawId challengePk);
     attestationObject := arrBufToBase64UrlSafe (attestationObject challengePk);
     clientDataJSON := arrBufToBase64UrlSafe (clientDataJSON challengePk);
     pkc_type := pkc_type challengePk |}.

(** A credential descriptor, and a challenge, in the form the backend
    sends: every binary field in its text-safe encoding. *)
Definition wire_descriptor (cred : CredentialDescriptor (list Byte.byte))
    : CredentialDescriptor string :=
  {| cred_id := arrBufToBase64UrlSafe (cred_id cred); cred_type := cred_type cred |}.

Definition wire_challenge (pk : PublicKeyOptions (list Byte.byte))
    : PublicKeyOptions string :=
  {| pk_challenge := arrBufToBase64UrlSafe (pk_challenge pk);
     pk_user_id := arrBufToBase64UrlSafe (pk_user_id pk);
     pk_excludeCredentials :=
       match pk_excludeCredentials pk with
       | Some creds => Some (wire_descriptor <$> creds)
       | None => None
       end;
     pk_userVerification := pk_userVerification pk |}.

Lemma decode_wire_descriptors (creds : list (CredentialDescriptor (list Byte.byte))) :
  mapM decode_descriptor (wire_descriptor <$> creds) = Some creds.
Proof.
  apply mapM_Some. induction creds as [|cred creds IH]; cbn.
  - constructor.
  - constructor; [|exact IH].
    unfold decode_descriptor, wire_descriptor. cbn.
    rewrite decode_encode. destruct cred; reflexivity.
Qed.

Lemma decode_wire_challenge (pk : PublicKeyOptions (list Byte.byte)) :
  decode_challenge (wire_challenge pk)
  = Some {| pk_challenge := pk_challenge pk;
            pk_user_id := pk_user_id pk;
            pk_excludeCredentials := pk_excludeCredentials pk;
            pk_userVerification := "required" |}.
Proof.
  unfold decode_challenge, wire_challenge. cbn.
  rewrite !decode_encode.
  destruct (pk_excludeCredentials pk) as [creds|]; [|reflexivity].
  rewrite decode_wire_descriptors. reflexivity.
Qed.

(** C8, amended.  Encoding a binary value and decoding the text gives the
    value back, and the text is over the alphabet; so the three binary
    fields of a credential result, as [handleRegisterPasskey] encodes them,
    decode to what the authenticator returned, and a challenge whose binary
    fields the backend encoded decodes to those fields.  Decoding and
    encoding again, in turn, gives a text back exactly when the text is the
    encoding of a binary value. *)
Theorem roundtrip_on_encodings :
  (forall buf : list Byte.byte,
      base64UrlSafeToArrBuf (arrBufToBase64UrlSafe buf) = Some buf
      /\ in_alphabet (arrBufToBase64UrlSafe buf) = true)
  /\ (forall s : string,
        reencode s = Some s <-> exists buf, s = arrBufToBase64UrlSafe buf)
  /\ (forall challengePk : PublicKeyCredential (list Byte.byte),
        base64UrlSafeToArrBuf (rawId (encode_credential challengePk))
        = Some (rawId challengePk)
        /\ base64UrlSafeToArrBuf (attestationObject (encode_credential challengePk))
           = Some (attestationObject challengePk)
        /\ base64UrlSafeToArrBuf (clientDataJSON (encode_credential challengePk))
           = Some (clientDataJSON challengePk))
  /\ (forall pk : PublicKeyOptions (list Byte.byte),
        decode_challenge (wire_challenge pk)
        = Some {| pk_challenge := pk_challenge pk;
                  pk_user_id := pk_user_id pk;
                  pk_excludeCredentials := pk_excludeCredentials pk;
                  pk_userVerification := "required" |}).
Proof.
  split; [|split; [|split]].
  - intros buf. split; [apply decode_encode | apply encode_in_alphabet].
  - intros s. unfold reencode. split.
    + destruct (base64UrlSafeToArrBuf s) as [buf|]; cbn; [|discriminate].
      intros [= Hs]. exists buf. symmetry. exact Hs.
    + intros [buf ->]. rewrite decode_encode. reflexivity.
  - intros challengePk. cbn. rewrite !decode_encode. auto.
  - apply decode_wire_challenge.
Qed.

(** *** What a decoded challenge keeps of the challenge received *)

Lemma decode_descriptors_shape (creds : list (CredentialDescriptor string)) :
  forall decoded, mapM decode_descriptor creds = Some decoded ->
  length decoded = length creds
  /\ cred_type <$> decoded = cred_type <$> creds.
Proof.
  induction creds as [|cred creds IH]; intros decoded Hdec.
  - cbn in Hdec. injection Hdec as <-. split; reflexivity.
  - apply mapM_Some in Hdec. inversion Hdec as [|? d ? ds Hd Hrest]; subst.
    apply mapM_Some in Hrest. destruct (IH ds Hrest) as [Hlen Htypes].
    unfold decode_descriptor in Hd.
    destruct (base64UrlSafeToArrBuf (cred_id cred)); [|discriminate].
    injection Hd as <-. cbn. split; [lia|]. f_equal. exact Htypes.
Qed.

Lemma decode_challenge_verification (pk : PublicKeyOptions string)
    (challenge : PublicKeyOptions (list Byte.byte)) :
  decode_challenge pk = Some challenge -> pk_userVerification challenge = "required".
Proof.
  unfold decode_challenge.
  destruct (base64UrlSafeToArrBuf (pk_challenge pk)); [|discriminate].
  destruct (base64UrlSafeToArrBuf (pk_user_id pk)); [|discriminate].
  destruct (pk_excludeCredentials pk) as [creds|].
  - destruct (mapM decode_descriptor creds); [|discriminate]. intros [= <-]. reflexivity.
  - intros [= <-]. reflexivity.
Qed.

(** Whatever user verification the backend asked for, the challenge handed
    to the credentials engine asks for ["required"]; its binary fields are
    the decodings of the fields received; the excluded credentials are as
    many as received, or missing when they were missing, with their types
    unchanged.  Decoding fails as soon as one binary field is no text the
    decoder accepts. *)
Theorem decoded_challenge_requires_verification (pk : PublicKeyOptions string) :
  match decode_challenge pk with
  | Some challenge =>
      pk_userVerification challenge = "required"
      /\ base64UrlSafeToArrBuf (pk_challenge pk) = Some (pk_challenge challenge)
      /\ base64UrlSafeToArrBuf (pk_user_id pk) = Some (pk_user_id challenge)
      /\ match pk_excludeCredentials pk, pk_excludeCredentials challenge with
         | Some creds, Some decoded =>
             length decoded = length creds
             /\ cred_type <$> decoded = cred_type <$> creds
             /\ mapM decode_descriptor creds = Some decoded
         | None, None => True
         | _, _ => False
         end
  | None =>
      base64UrlSafeToArrBuf (pk_challenge pk) = None
      \/ base64UrlSafeToArrBuf (pk_user_id pk) = None
      \/ exists creds cred,
           pk_excludeCredentials pk = Some creds /\ In cred creds
           /\ base64UrlSafeToArrBuf (cred_id cred) = None
  end.
Proof.
  unfold decode_challenge.
  destruct (base64UrlSafeToArrBuf (pk_challenge pk)) as [challenge|]; [|auto].
  destruct (base64UrlSafeToArrBuf (pk_user_id pk)) as [user|]; [|auto].
  destruct (pk_excludeCredentials pk) as [creds|]; cbn; [|auto].
  destruct (mapM decode_descriptor creds) as [decoded|] eqn:Hdec; cbn.
  - destruct (decode_descriptors_shape creds decoded Hdec). repeat split; assumption.
  - right. right. exists creds.
    apply mapM_None in Hdec. apply Exists_exists in Hdec as (cred & Hin & Hnone).
    exists cred. repeat split; [apply list_elem_of_In, Hin|].
    unfold decode_descriptor in Hnone.
    destruct (base64UrlSafeToArrBuf (cred_id cred)); [discriminate|reflexivity].
Qed.

End Ceremony.

(** ** The password policy and the password generator *)
Module PasswordPolicy.

(** [policy], as [onMount] assembles it from the page data. *)
Record Policy : Type := {
  length_min : Z;
  length_max : Z;
  include_lower_case : Z;
  include_upper_case : Z;
  include_digits : Z;
  include_special : Z;
  not_recently_used : Z;
}.

Definition char_code (c : ascii) : Z := Z.of_nat (nat_of_ascii c).

Definition is_lower (c : ascii) : bool := (97 <=? char_code c) && (char_code c <=? 122).
Definition is_upper (c : ascii) : bool := (65 <=? char_code c) && (char_code c <=? 90).
Definition is_digit (c : ascii) : bool := (48 <=? char_code c) && (char_code c <=? 57).
(** A printable character that is neither a letter nor a digit. *)
Definition is_special (c : ascii) : bool :=
  (33 <=? char_code c) && (char_code c <=? 126)
  && negb (is_lower c || is_upper c || is_digit c).

Inductive Rule : Type :=
| RuleLengthMin
| RuleLengthMax
| RuleLowerCase
| RuleUpperCase
| RuleDigits
| RuleSpecial.

Definition missing (count : Z) (cls : ascii -> bool) (chars : list ascii)
    (rule : Rule) : list Rule :=
  if (0 <? count) && negb (existsb cls chars) then [rule] else [].

(** Modelled from the spec: the validator of
    [components/passwordReset/PasswordPolicy.svelte], which is not among
    the sources.  Section 4.1: "validate(password, policy) -> list of
    violated rules.  Rules checked: length within [lengthMin, lengthMax];
    presence of at least one character from each character class whose
    corresponding policy count is > 0". *)
Definition validate (password : string) (policy : Policy) : list Rule :=
  let chars := list_ascii_of_string password in
  let len := Z.of_nat (String.length password) in
  (if len <? length_min policy then [RuleLengthMin] else [])
  ++ (if length_max policy <? len then [RuleLengthMax] else [])
  ++ missing (include_lower_case policy) is_lower chars RuleLowerCase
  ++ missing (include_upper_case policy) is_upper chars RuleUpperCase
  ++ missing (include_digits policy) is_digit chars RuleDigits
  ++ missing (include_special policy) is_special chars RuleSpecial.

Definition lower_chars : list ascii :=
  list_ascii_of_string "abcdefghijklmnopqrstuvwxyz".
Definition upper_chars : list ascii :=
  list_ascii_of_string "ABCDEFGHIJKLMNOPQRSTUVWXYZ".
Definition digit_chars : list ascii := list_ascii_of_string "0123456789".
Definition special_chars : list ascii :=
  list_ascii_of_string "!#$%&()*+,-./:;<=>?@[]^_{|}~".
Definition all_chars : list ascii :=
  lower_chars ++ upper_chars ++ digit_chars ++ special_chars.

(** The source of randomness: the value of the [i]-th draw. *)
Definition Random : Type := nat -> nat.

Definition pick (chars : list ascii) (r : nat) : ascii :=
  nth (r mod length chars) chars "a"%char.

(** [n] characters of [chars], drawn independently, from draw [i] on. *)
Fixpoint draw (chars : list ascii) (n : nat) (rnd : Random) (i : nat) : list ascii :=
  match n with
  | O => []
  | S n' => pick chars (rnd i) :: draw chars n' rnd (S i)
  end.

(** A shuffle: [n] times, a random element of what is left comes next. *)
Fixpoint shuffle (rnd : Random) (i : nat) (n : nat) (l : list ascii) : list ascii :=
  match n with
  | O => l
  | S n' =>
      let k := (rnd i mod length l)%nat in
      match l !! k with
      | Some x => x :: shuffle rnd (S i) n' (delete k l)
      | None => l
      end
  end.

(** Modelled from the spec: [generatePassword] of [utils/helpers.js], which
    is not among the sources.  Section 4.1: "characters are drawn
    independently per required class, then the remainder is filled from the
    full allowed alphabet and shuffled". *)
Definition generatePassword (rnd : Random)
    (len lower upper digits special : Z) : string :=
  let n1 := Z.to_nat lower in
  let n2 := Z.to_nat upper in
  let n3 := Z.to_nat digits in
  let n4 := Z.to_nat special in
  let required :=
    draw lower_chars n1 rnd 0
    ++ draw upper_chars n2 rnd n1
    ++ draw digit_chars n3 rnd (n1 + n2)
    ++ draw special_chars n4 rnd (n1 + n2 + n3) in
  let k := length required in
  let fill := draw all_chars (Z.to_nat len - k) rnd k in
  let chars := required ++ fill in
  string_of_list_ascii (shuffle rnd (Z.to_nat len + k) (length chars) chars).

(** *** Length and content of a generated password *)

Lemma string_of_list_ascii_length (l : list ascii) :
  String.length (string_of_list_ascii l) = length l.
Proof. induction l as [|ch l IH]; cbn; [reflexivity|]. rewrite IH. reflexivity. Qed.

Lemma draw_length (chars : list ascii) (n : nat) (rnd : Random) : forall i,
  length (draw chars n rnd i) = n.
Proof.
  induction n as [|n IH]; intros i; cbn; [reflexivity|]. rewrite IH. reflexivity.
Qed.

Lemma shuffle_Permutation (rnd : Random) (n : nat) : forall i l,
  shuffle rnd i n l ≡ₚ l.
Proof.
  induction n as [|n IH]; intros i l; cbn [shuffle]; [reflexivity|].
  destruct (l !! (rnd i mod length l)%nat) as [x|] eqn:Hx; [|reflexivity].
  rewrite (IH (S i) (delete (rnd i mod length l)%nat l)).
  symmetry. apply delete_Permutation, Hx.
Qed.

Lemma shuffle_length (rnd : Random) (i n : nat) (l : list ascii) :
  length (shuffle rnd i n l) = length l.
Proof. apply Permutation_length, shuffle_Permutation. Qed.

(** The length asked for, or the number of required characters when that
    is more. *)
Lemma generatePassword_length (rnd : Random) (len lower upper digits special : Z) :
  String.length (generatePassword rnd len lower upper digits special)
  = Nat.max (Z.to_nat len)
      (Z.to_nat lower + Z.to_nat upper + Z.to_nat digits + Z.to_nat special).
Proof.
  unfold generatePassword.
  rewrite string_of_list_ascii_length, shuffle_length.
  rewrite !length_app, !draw_length. lia.
Qed.

Lemma pick_In (chars : list ascii) (r : nat) :
  chars <> [] -> In (pick chars r) chars.
Proof.
  intros Hne. unfold pick. apply nth_In.
  apply Nat.mod_upper_bound. destruct chars; [congruence|cbn; lia].
Qed.

Lemma draw_exists (cls : ascii -> bool) (chars : list ascii) (n : nat)
    (rnd : Random) (i : nat) :
  chars <> [] -> forallb cls chars = true -> (0 < n)%nat ->
  existsb cls (draw chars n rnd i) = true.
Proof.
  intros Hne Hcls Hn. destruct n as [|n]; [lia|]. cbn [draw existsb].
  rewrite forallb_forall in Hcls. rewrite (Hcls _ (pick_In chars (rnd i) Hne)).
  reflexivity.
Qed.

Lemma existsb_Permutation (cls : ascii -> bool) (l1 l2 : list ascii) :
  l1 ≡ₚ l2 -> existsb cls l1 = true -> existsb cls l2 = true.
Proof.
  intros Hperm. rewrite !existsb_exists. intros (x & Hin & Hx).
  exists x. split; [|exact Hx]. eapply Permutation_in; eassumption.
Qed.

(** Every class asked for is present in the generated password. *)
Lemma generatePassword_classes (rnd : Random) (len lower upper digits special : Z) :
  let chars := list_ascii_of_string
                 (generatePassword rnd len lower upper digits special) in
  (0 < lower -> existsb is_lower chars = true)
  /\ (0 < upper -> existsb is_upper chars = true)
  /\ (0 < digits -> existsb is_digit chars = true)
  /\ (0 < special -> existsb is_special chars = true).
Proof.
  intros chars. subst chars. unfold generatePassword.
  rewrite list_ascii_of_string_of_list_ascii.
  repeat split; intros Hpos;
    (eapply existsb_Permutation; [symmetry; apply shuffle_Permutation|]);
    rewrite !existsb_app.
  - rewrite (draw_exists is_lower lower_chars); [reflexivity|discriminate|reflexivity|lia].
  - rewrite (draw_exists is_upper upper_chars); [|discriminate|reflexivity|lia].
    rewrite !orb_true_r. reflexivity.
  - rewrite (draw_exists is_digit digit_chars); [|discriminate|reflexivity|lia].
    rewrite !orb_true_r. reflexivity.
  - rewrite (draw_exists is_special special_chars); [|discriminate|reflexivity|lia].
    rewrite !orb_true_r. reflexivity.
Qed.

End PasswordPolicy.

(** ** The password-reset page ([OrderBy.svelte], second document) *)
Module ResetPage.
Import PasswordPolicy Ceremony.

(** The entries of the translation object [t] that the script reads:
    [t.required], [t.passwordNoMatch], [t.mfa.passkeyNameErr] and
    [t.mfa.errorReg]. *)
Record Translations : Type := {
  t_required : string;
  t_passwordNoMatch : string;
  t_mfa_passkeyNameErr : string;
  t_mfa_errorReg : string;
}.

Record FormValues : Type := {
  passkeyName : string;
  password : string;
  passwordConfirm : string;
}.

Definition emptyForm : FormValues :=
  {| passkeyName := ""; password := ""; passwordConfirm := "" |}.

(** *** Form schemas (yup) *)

Inductive Test : Type :=
| yup_required (message : string)
| yup_matches (regex : string -> bool) (message : string).

Definition Schema : Type := list (string * list Test).

Definition field (values : FormValues) (path : string) : option string :=
  if String.eqb path "passkeyName" then Some (passkeyName values)
  else if String.eqb path "password" then Some (password values)
  else if String.eqb path "passwordConfirm" then Some (passwordConfirm values)
  else None.

(** [required] refuses a missing value and the empty string; [matches]
    tests a value that is there. *)
Definition run_test (value : option string) (test : Test) : list string :=
  match test, value with
  | yup_required message, None => [message]
  | yup_required message, Some v => if String.eqb v "" then [message] else []
  | yup_matches _ _, None => []
  | yup_matches regex message, Some v => if regex v then [] else [message]
  end.

(** [schema.validate(values, {abortEarly: false})]: every failed test, as a
    pair of the field's path and the message; the empty list when the
    values are valid (otherwise [validate] throws an error holding them). *)
Definition schema_validate (schema : Schema) (values : FormValues)
    : list (string * string) :=
  flat_map
    (fun '(path, tests) =>
       pair path <$> flat_map (run_test (field values path)) tests)
    schema.

(** Modelled from the spec: [extractFormErrors] of [utils/helpers.js], which
    is not among the sources.  Section 4.2: a "map of field -> error
    message". *)
Definition extractFormErrors (errors : list (string * string)) : gmap string string :=
  list_to_map errors.

(** *** The network boundary *)

Record RegStartData : Type := {
  rs_passkey_name : string;
  rs_magic_link_id : string;
}.

Record RegFinishData : Type := {
  rf_passkey_name : string;
  rf_data : PublicKeyCredential string;
  rf_magic_link_id : string;
}.

Record ResetData : Type := {
  rp_password : string;
  rp_magic_link_id : string;
  rp_mfa_code : option string;
}.

(** The functions of [utils/dataFetching.js] the page calls, with their
    arguments. *)
Inductive Request : Type :=
| webauthnRegStartAccReset (userId : string) (data : RegStartData) (csrf : string)
| webauthnRegFinishAccReset (userId : string) (data : RegFinishData) (csrf : string)
| webauthnAuthStart (userId : string) (purpose : string)
| resetPassword (userId : string) (data : ResetData) (csrf : string).

(** The fields of a response body ([await res.json()]) that the page reads;
    [user_id] and [publicKey] may be missing. *)
Record Body : Type := {
  user_id : option string;
  message : string;
  publicKey : option (PublicKeyOptions string);
}.

(** A response.  [json] is what [await res.json()] gives: the parsed body,
    or [None] when the body is not JSON and the promise rejects, which ends
    the handler that awaits it at that statement. *)
Record Response : Type := {
  status : Z;
  headers : gmap string string;
  json : option Body;
}.

(** [res.ok]: the status is in the range 200-299. *)
Definition ok (res : Response) : bool :=
  (200 <=? status res) && (status res <=? 299).

(** The user id a response reports: the [user_id] of its body, when the
    body is JSON and has one. *)
Definition reported_user_id (res : Response) : option string :=
  match json res with
  | Some body => user_id body
  | None => None
  end.

(** What lies outside the page: the backend, which answers every request
    with a response, and the browser's authenticator ceremony
    [navigator.credentials.create], which yields a credential or throws
    ([None]). *)
Record Env : Type := {
  fetch : Request -> Response;
  credentials_create :
    PublicKeyOptions (list Byte.byte) -> option (PublicKeyCredential (list Byte.byte));
}.

(** *** The page's variables *)

(** The variables that [onMount] and the i18n binding assign once, and the
    imported constant [REGEX_NAME] of [utils/constants.js], which is not
    among the sources and is taken as its matcher. *)
Record Config : Type := {
  t : Translations;
  csrf : string;
  policy : Policy;
  isMfa : bool;
  userId : string;
  magicLinkId : string;
  REGEX_NAME : string -> bool;
}.

(** The callbacks handed to [setTimeout]. *)
Inductive Timeout : Type :=
| redirectAfterSuccess.

(** The variables that change while the page is shown.  Two fields are not
    variables of the script: [timers] holds the pending [setTimeout] calls
    with their delays, and [calls] the requests sent so far, oldest
    first. *)
Record State : Type := {
  isLoading : bool;
  err : string;
  redirectUri : option string;
  success : bool;
  accepted : bool;
  accountTypeNew : string;
  showCopy : bool;
  webauthnData : option Body;
  formValues : FormValues;
  formErrors : gmap string string;
  timers : list (Timeout * Z);
  calls : list Request;
}.

Definition init : State :=
  {| isLoading := false; err := ""; redirectUri := None; success := false;
     accepted := false; accountTypeNew := ""; showCopy := false;
     webauthnData := None; formValues := emptyForm; formErrors := ∅;
     timers := []; calls := [] |}.

Definition set_isLoading (v : bool) (s : State) : State :=
  {| isLoading := v; err := err s; redirectUri := redirectUri s;
     success := success s; accepted := accepted s;
     accountTypeNew := accountTypeNew s; showCopy := showCopy s;
     webauthnData := webauthnData s; formValues := formValues s;
     formErrors := formErrors s; timers := timers s; calls := calls s |}.

Definition set_err (v : string) (s : State) : State :=
  {| isLoading := isLoading s; err := v; redirectUri := redirectUri s;
     success := success s; accepted := accepted s;
     accountTypeNew := accountTypeNew s; showCopy := showCopy s;
     webauthnData := webauthnData s; formValues := formValues s;
     formErrors := formErrors s; timers := timers s; calls := calls s |}.

Definition set_redirectUri (v : option string) (s : State) : State :=
  {| isLoading := isLoading s; err := err s; redirectUri := v;
     success := success s; accepted := accepted s;
     accountTypeNew := accountTypeNew s; showCopy := showCopy s;
     webauthnData := webauthnData s; formValues := formValues s;
     formErrors := formErrors s; timers := timers s; calls := calls s |}.

Definition set_success (v : bool) (s : State) : State :=
  {| isLoading := isLoading s; err := err s; redirectUri := redirectUri s;
     success := v; accepted := accepted s;
     accountTypeNew := accountTypeNew s; showCopy := showCopy s;
     webauthnData := webauthnData s; formValues := formValues s;
     formErrors := formErrors s; timers := timers s; calls := calls s |}.

Definition set_accepted (v : bool) (s : State) : State :=
  {| isLoading := isLoading s; err := err s; redirectUri := redirectUri s;
     success := success s; accepted := v;
     accountTypeNew := accountTypeNew s; showCopy := showCopy s;
     webauthnData := webauthnData s; formValues := formValues s;
     formErrors := formErrors s; timers := timers s; calls := calls s |}.

Definition set_accountTypeNew (v : string) (s : State) : State :=
  {| isLoading := isLoading s; err := err s; redirectUri := redirectUri s;
     success := success s; accepted := accepted s; accountTypeNew := v;
     showCopy := showCopy s; webauthnData := webauthnData s;
     formValues := formValues s; formErrors := formErrors s;
     timers := timers s; calls := calls s |}.

Definition set_showCopy (v : bool) (s : State) : State :=
  {| isLoading := isLoading s; err := err s; redirectUri := redirectUri s;
     success := success s; accepted := accepted s;
     accountTypeNew := accountTypeNew s; showCopy := v;
     webauthnData := webauthnData s; formValues := formValues s;
     formErrors := formErrors s; timers := timers s; calls := calls s |}.

Definition set_webauthnData (v : option Body) (s : State) : State :=
  {| isLoading := isLoading s; err := err s; redirectUri := redirectUri s;
     success := success s; accepted := accepted s;
     accountTypeNew := accountTypeNew s; showCopy := showCopy s;
     webauthnData := v; formValues := formValues s;
     formErrors := formErrors s; timers := timers s; calls := calls s |}.

Definition set_formValues (v : FormValues) (s : State) : State :=
  {| isLoading := isLoading s; err := err s; redirectUri := redirectUri s;
     success := success s; accepted := accepted s;
     accountTypeNew := accountTypeNew s; showCopy := showCopy s;
     webauthnData := webauthnData s; formValues := v;
     formErrors := formErrors s; timers := timers s; calls := calls s |}.

Definition set_formErrors (v : gmap string string) (s : State) : State :=
  {| isLoading := isLoading s; err := err s; redirectUri := redirectUri s;
     success := success s; accepted := accepted s;
     accountTypeNew := accountTypeNew s; showCopy := showCopy s;
     webauthnData := webauthnData s; formValues := formValues s;
     formErrors := v; timers := timers s; calls := calls s |}.

Definition set_timers (v : list (Timeout * Z)) (s : State) : State :=
  {| isLoading := isLoading s; err := err s; redirectUri := redirectUri s;
     success := success s; accepted := accepted s;
     accountTypeNew := accountTypeNew s; showCopy := showCopy s;
     webauthnData := webauthnData s; formValues := formValues s;
     formErrors := formErrors s; timers := v; calls := calls s |}.

Definition set_calls (v : list Request) (s : State) : State :=
  {| isLoading := isLoading s; err := err s; redirectUri := redirectUri s;
     success := success s; accepted := accepted s;
     accountTypeNew := accountTypeNew s; showCopy := showCopy s;
     webauthnData := webauthnData s; formValues := formValues s;
     formErrors := formErrors s; timers := timers s; calls := v |}.

(** *** The handlers *)

(** A request: the backend's answer, and the request noted in [calls]. *)
Definition send (env : Env) (req : Request) (s : State) : Response * State :=
  (fetch env req, set_calls (calls s ++ [req]) s).

Definition schemaPasskey (c : Config) : Schema :=
  [("passkeyName",
    [yup_required (t_required (t c));
     yup_matches (REGEX_NAME c) (t_mfa_passkeyNameErr (t c))])].

Definition schemaPassword (c : Config) : Schema :=
  [("password", [yup_required (t_required (t c))]);
   ("passwordConfirm", [yup_required (t_required (t c))])].


Definition generate (rnd : Random) (c : Config) (s : State) : State :=
  let len := if 24 <? length_min (policy c) then length_min (policy c) else 24 in
  let pwd :=
    generatePassword rnd len
      (include_lower_case (policy c))
      (include_upper_case (policy c))
      (include_digits (policy c))
      (include_special (policy c)) in
  set_formValues
    {| passkeyName := passkeyName (formValues s);
       password := pwd;
       passwordConfirm := pwd |} s.

Definition onWebauthnError (c : Config) (s : State) : State :=
  set_err (t_mfa_errorReg (t c)) (set_webauthnData None s).

Definition onSubmitFinish (c : Config) (env : Env) (mfaCode : option string)
    (s : State) : State :=
  let s := set_isLoading true s in
  let data :=
    {| rp_password := password (formValues s);
       rp_magic_link_id := magicLinkId c;
       rp_mfa_code := mfaCode |} in
  let '(res, s) := send env (resetPassword (userId c) data (csrf c)) s in
  if ok res then
    let s := set_err "" s in
    let s := set_formValues emptyForm s in
    let s := set_redirectUri (headers res !! "Location") s in
    let s := set_success true s in
    set_isLoading false s
  else
    match json res with
    | None => s
    | Some body =>
        let s := set_err (message body) s in
        set_isLoading false s
    end.

(** The result the [WebauthnRequest] component hands to [onSuccess]. *)
Record WebauthnResult : Type := {
  code : option string;
}.

Definition onWebauthnSuccess (c : Config) (env : Env)
    (res : option WebauthnResult) (s : State) : State :=
  match res with
  | Some r => onSubmitFinish c env (code r) (set_webauthnData None s)
  | None => s
  end.

Definition passwordReset (c : Config) (env : Env) (s : State) : State :=
  match schema_validate (schemaPassword c) (formValues s) with
  | (_ :: _) as errors => set_formErrors (extractFormErrors errors) s
  | [] =>
      let s := set_formErrors ∅ s in
      if negb (accepted s) then s
      else if (256 <? String.length (password (formValues s)))%nat then
        set_err "max 256" s
      else if negb (String.eqb (password (formValues s))
                               (passwordConfirm (formValues s))) then
        set_err (t_passwordNoMatch (t c)) s
      else
        let s := set_err "" s in
        if isMfa c then
          let '(res, s) := send env (webauthnAuthStart (userId c) "PasswordReset") s in
          match json res with
          | None => s
          | Some body =>
              if negb (ok res) then
                set_isLoading false (set_err (message body) s)
              else if negb (bool_decide (user_id body = Some (userId c))) then
                set_isLoading false
                  (set_err "MFA user ID does not match - this should never happen" s)
              else
                set_webauthnData (Some body) s
          end
        else
          onSubmitFinish c env None s
  end.

Definition handleRegisterPasskey (c : Config) (env : Env) (s : State) : State :=
  let s := set_err "" s in
  match schema_validate (schemaPasskey c) (formValues s) with
  | (_ :: _) as errors => set_formErrors (extractFormErrors errors) s
  | [] =>
      let s := set_formErrors ∅ s in
      let name := passkeyName (formValues s) in
      if (String.length name <? 2)%nat then
        set_err (t_mfa_passkeyNameErr (t c)) s
      else
        let data := {| rs_passkey_name := name; rs_magic_link_id := magicLinkId c |} in
        let '(res, s) := send env (webauthnRegStartAccReset (userId c) data (csrf c)) s in
        if status res =? 200 then
          match json res with
          | None => s
          | Some body =>
              match publicKey body with
              | None => s
              | Some pk =>
                  match decode_challenge pk with
                  | None => s
                  | Some challenge =>
                      match credentials_create env challenge with
                      | None => s
                      | Some challengePk =>
                          let data :=
                            {| rf_passkey_name := name;
                               rf_data := encode_credential challengePk;
                               rf_magic_link_id := magicLinkId c |} in
                          let '(res, s) :=
                            send env
                              (webauthnRegFinishAccReset (userId c) data (csrf c)) s in
                          if status res =? 201 then
                            set_success true (set_formValues emptyForm s)
                          else
                            onWebauthnError c s
                      end
                  end
              end
          end
        else
          onWebauthnError c s
  end.

(** *** Reactive blocks and timers *)

(** The [run] blocks that follow a handler, given the state before it:
    a changed, non-empty [accountTypeNew] empties the form; a non-empty
    password equal to its confirmation sets [showCopy]; [success] turning
    true schedules the redirect, 5000 ms ahead. *)
Definition react (before s : State) : State :=
  let s :=
    if negb (String.eqb (accountTypeNew s) (accountTypeNew before))
       && Js.truthy (Some (accountTypeNew s))
    then set_formValues emptyForm s else s in
  let s :=
    if (0 <? String.length (password (formValues s)))%nat
       && String.eqb (password (formValues s)) (passwordConfirm (formValues s))
    then set_showCopy true s else s in
  if success s && negb (success before)
  then set_timers (timers s ++ [(redirectAfterSuccess, 5000)]) s
  else s.


(** What can happen on the page: input bound to the form and to the policy
    component, the buttons, and the callbacks of the [WebauthnRequest]
    component. *)
Inductive Event : Type :=
| input_passkeyName (v : string)
| input_password (v : string)
| input_passwordConfirm (v : string)
| bind_accepted (v : bool)
| click_accountType (v : string)
| click_generate (rnd : Random)
| click_register (env : Env)
| click_save (env : Env)
| webauthn_onSuccess (env : Env) (res : option WebauthnResult)
| webauthn_onError.

Definition handler (c : Config) (ev : Event) (s : State) : State :=
  match ev with
  | input_passkeyName v =>
      set_formValues
        {| passkeyName := v; password := password (formValues s);
           passwordConfirm := passwordConfirm (formValues s) |} s
  | input_password v =>
      set_formValues
        {| passkeyName := passkeyName (formValues s); password := v;
           passwordConfirm := passwordConfirm (formValues s) |} s
  | input_passwordConfirm v =>
      set_formValues
        {| passkeyName := passkeyName (formValues s);
           password := password (formValues s); passwordConfirm := v |} s
  | bind_accepted v => set_accepted v s
  | click_accountType v => set_accountTypeNew v s
  | click_generate rnd => generate rnd c s
  | click_register env => handleRegisterPasskey c env s
  | click_save env => passwordReset c env s
  | webauthn_onSuccess env res => onWebauthnSuccess c env res s
  | webauthn_onError => onWebauthnError c s
  end.

Definition dispatch (c : Config) (s : State) (ev : Event) : State :=
  react s (handler c ev s).

(** The page after a sequence of events, oldest first. *)
Definition run (c : Config) (evs : list Event) : State :=
  fold_left (dispatch c) evs init.

(** *** Sample data for the concrete instances below *)

Definition sample_t : Translations :=
  {| t_required := "Required";
     t_passwordNoMatch := "Passwords do not match";
     t_mfa_passkeyNameErr := "10 to 32 non-special characters";
     t_mfa_errorReg := "Error starting the Registration process" |}.

(** The policy of the spec's scenarios: [10, 128, 1, 1, 1, 1, 1]. *)
Definition sample_policy : Policy :=
  {| length_min := 10; length_max := 128; include_lower_case := 1;
     include_upper_case := 1; include_digits := 1; include_special := 1;
     not_recently_used := 1 |}.

Definition sample_config (mfa : bool) : Config :=
  {| t := sample_t; csrf := "csrf-token"; policy := sample_policy; isMfa := mfa;
     userId := "user-1"; magicLinkId := "magic-link-1";
     REGEX_NAME := fun _ => true |}.

(** A backend that answers every request alike, and an authenticator that
    refuses. *)
Definition sample_env (code : Z) (location : option string) (body : Body) : Env :=
  {| fetch := fun _ =>
       {| status := code;
          headers := match location with
                     | Some uri => {[ "Location" := uri ]}
                     | None => ∅
                     end;
          json := Some body |};
     credentials_create := fun _ => None |}.

Definition sample_body (user : option string) (msg : string) : Body :=
  {| user_id := user; message := msg; publicKey := None |}.

(** The form filled in with a password and a confirmation. *)
Definition filled (pwd confirm : string) (accept : bool) : State :=
  set_accepted accept
    (set_formValues
       {| passkeyName := ""; password := pwd; passwordConfirm := confirm |} init).

(** A password of 257 characters. *)
Definition long_password : string :=
  string_of_list_ascii (repeat "a"%char 257).

(** A backend that accepts a passkey registration, and an authenticator
    that creates a credential. *)
Definition passkey_env : Env :=
  {| fetch := fun req =>
       match req with
       | webauthnRegStartAccReset _ _ _ =>
           {| status := 200; headers := ∅;
              json := Some
                      {| user_id := None; message := "";
                         publicKey :=
                           Some {| pk_challenge := "Zm_7_w";
                                   pk_user_id := "QUJD";
                                   pk_excludeCredentials :=
                                     Some [ {| cred_id := "QQ"; cred_type := "public-key" |} ];
                                   pk_userVerification := "preferred" |} |} |}
       | webauthnRegFinishAccReset _ _ _ =>
           {| status := 201; headers := ∅; json := Some (sample_body None "") |}
       | _ =>
           {| status := 404; headers := ∅;
              json := Some (sample_body None "Not Found") |}
       end;
     credentials_create := fun _ =>
       Some {| pkc_id := "credential-1";
               rawId := [Byte.x01; Byte.x02];
               attestationObject := [Byte.xa3; Byte.x63; Byte.x66];
               clientDataJSON := [Byte.x7b; Byte.x7d];
               pkc_type := "public-key" |} |}.

Definition passkey_form : State :=
  set_formValues
    {| passkeyName := "my-key"; password := ""; passwordConfirm := "" |} init.

(** A policy whose maximum length is below 24. *)
Definition tight_policy : Policy :=
  {| length_min := 8; length_max := 16; include_lower_case := 1;
     include_upper_case := 1; include_digits := 1; include_special := 1;
     not_recently_used := 3 |}.

Definition tight_config : Config :=
  {| t := sample_t; csrf := "csrf-token"; policy := tight_policy; isMfa := false;
     userId := "user-1"; magicLinkId := "magic-link-1";
     REGEX_NAME := fun _ => true |}.

(** *** The checks ahead of the network boundary *)

(** The conditions under which [passwordReset] gets past its early
    returns. *)
Definition submittable (s : State) : Prop :=
  password (formValues s) <> ""
  /\ passwordConfirm (formValues s) <> ""
  /\ accepted s = true
  /\ (String.length (password (formValues s)) <= 256)%nat
  /\ password (formValues s) = passwordConfirm (formValues s).

(** The two requests of a password reset: the start of the MFA assertion,
    and the reset itself with the password of the form. *)
Definition auth_start_request (c : Config) : Request :=
  webauthnAuthStart (userId c) "PasswordReset".

Definition reset_request (c : Config) (s : State) (mfaCode : option string) : Request :=
  resetPassword (userId c)
    {| rp_password := password (formValues s);
       rp_magic_link_id := magicLinkId c;
       rp_mfa_code := mfaCode |} (csrf c).

(** A refusal whose body is not JSON, such as the error page of a gateway
    in front of the backend. *)
Definition unparsed_refusal (res : Response) : Prop :=
  ok res = false /\ json res = None.

(** The events whose handler reaches [onSubmitFinish] and gets an unparsed
    refusal of the reset: a click on save without MFA on a form that passes
    the local checks, and the success callback of the MFA assertion. *)
Definition leaves_loading (c : Config) (s : State) (ev : Event) : Prop :=
  match ev with
  | click_save env =>
      isMfa c = false /\ submittable s
      /\ unparsed_refusal (fetch env (reset_request c s None))
  | webauthn_onSuccess env (Some r) =>
      unparsed_refusal (fetch env (reset_request c s (code r)))
  | _ => False
  end.

(** A backend behind a gateway that answers every request with status 502
    and an HTML page. *)
Definition gateway_env : Env :=
  {| fetch := fun _ => {| status := 502; headers := ∅; json := None |};
     credentials_create := fun _ => None |}.

Lemma schemaPassword_valid (c : Config) (v : FormValues) :
  schema_validate (schemaPassword c) v = []
  <-> password v <> "" /\ passwordConfirm v <> "".
Proof.
  unfold schema_validate, schemaPassword. cbn.
  destruct (String.eqb_spec (password v) "") as [Hp|Hp],
           (String.eqb_spec (passwordConfirm v) "") as [Hc|Hc]; cbn;
    split; try discriminate; try tauto; intros [? ?]; congruence.
Qed.

(** Simplification of projections out of updated states, leaving the
    tests of the handlers as they are written. *)
Ltac simp_state :=
  cbn -[Nat.ltb Nat.leb String.eqb String.length Z.leb Z.ltb Z.eqb
        bool_decide lookup app schema_validate extractFormErrors] in *.

(** Splits the conjunctions of a goal, not what lies behind an
    implication. *)
Ltac conjuncts := repeat match goal with |- _ /\ _ => split end.

(** The state when [passwordReset] returns at one of its early returns. *)
Lemma passwordReset_early (c : Config) (env : Env) (s : State) :
  ~ submittable s ->
  exists e fe, passwordReset c env s = set_err e (set_formErrors fe s).
Proof.
  intros Hno. unfold passwordReset.
  destruct (schema_validate (schemaPassword c) (formValues s)) as [|e0 errs] eqn:Hschema.
  - apply schemaPassword_valid in Hschema as [Hp Hc]. simp_state.
    destruct (accepted s) eqn:Hacc; simp_state.
    + destruct (Nat.ltb_spec 256 (String.length (password (formValues s)))) as [Hlong|Hlen].
      { eexists _, _. reflexivity. }
      destruct (String.eqb_spec (password (formValues s)) (passwordConfirm (formValues s)))
        as [Heq|Hne]; simp_state.
      { exfalso. apply Hno. unfold submittable. auto. }
      eexists _, _. reflexivity.
    + exists (err s), ∅. destruct s; reflexivity.
  - exists (err s), (extractFormErrors (e0 :: errs)). destruct s; reflexivity.
Qed.

(** The tests of [passwordReset] in the order of the script: an invalid
    form; policy not accepted; password over 256 characters; password and
    confirmation different; all passed. *)
Ltac reset_tests c s :=
  unfold passwordReset;
  destruct (schema_validate (schemaPassword c) (formValues s)) as [|? ?] eqn:Hschema;
  [ apply schemaPassword_valid in Hschema as [Hpwd Hconfirm]; simp_state;
    destruct (accepted s) eqn:Haccepted; simp_state;
    [ destruct (Nat.ltb_spec 256 (String.length (password (formValues s))))
        as [Hlong|Hshort]; simp_state;
      [ | destruct (String.eqb_spec (password (formValues s))
                                    (passwordConfirm (formValues s)))
            as [Hsame|Hdiff]; simp_state ]
    | ]
  | assert (Hinvalid : ~ (password (formValues s) <> ""
                          /\ passwordConfirm (formValues s) <> ""))
      by (rewrite <- (schemaPassword_valid c), Hschema; discriminate);
    simp_state ].

(** [passwordReset] on a form that passes the local checks. *)
Lemma passwordReset_checked (c : Config) (env : Env) (s : State) :
  submittable s ->
  let checked := set_err "" (set_formErrors ∅ s) in
  let asked := set_calls (calls s ++ [auth_start_request c]) checked in
  let res := fetch env (auth_start_request c) in
  passwordReset c env s
  = if isMfa c then
      match json res with
      | None => asked
      | Some body =>
          if ok res then
            if bool_decide (user_id body = Some (userId c))
            then set_webauthnData (Some body) asked
            else set_isLoading false
                   (set_err "MFA user ID does not match - this should never happen" asked)
          else set_isLoading false (set_err (message body) asked)
      end
    else onSubmitFinish c env None checked.
Proof.
  intros (Hp & Hc & Hacc & Hlen & Heq) checked asked res.
  subst checked asked res. unfold auth_start_request.
  reset_tests c s; try congruence; try lia; try tauto.
  destruct (isMfa c); [|reflexivity].
  unfold send. simp_state.
  destruct (json (fetch env _)); [|reflexivity].
  destruct (ok (fetch env _)); simp_state; [|reflexivity].
  destruct (bool_decide _); reflexivity.
Qed.

(** The annotation the password schema leaves at a field: the required
    message when the field is empty, none otherwise. *)
Definition required_annotation (c : Config) (value : string) : option string :=
  if String.eqb value "" then Some (t_required (t c)) else None.

Lemma schemaPassword_annotations (c : Config) (v : FormValues) :
  extractFormErrors (schema_validate (schemaPassword c) v) !! "password"
  = required_annotation c (password v)
  /\ extractFormErrors (schema_validate (schemaPassword c) v) !! "passwordConfirm"
     = required_annotation c (passwordConfirm v)
  /\ (forall path,
        path <> "password" -> path <> "passwordConfirm" ->
        extractFormErrors (schema_validate (schemaPassword c) v) !! path = None).
Proof.
  unfold extractFormErrors, schema_validate, schemaPassword, required_annotation. cbn.
  destruct (String.eqb (password v) ""), (String.eqb (passwordConfirm v) ""); cbn;
    (split; [|split]);
    try (intros path Hp Hc);
    repeat first [ rewrite lookup_insert_eq | rewrite lookup_insert_ne by congruence ];
    try rewrite lookup_empty; reflexivity.
Qed.

(** C10, as stated: with the acceptance flag false the submission is a
    silent no-op, no visible error message being set.  The schema check
    comes before the flag is read: on the empty form, where the flag is
    false, a click on save marks both fields as required. *)
Lemma not_accepted_not_always_silent :
  accepted (filled "" "" false) = false
  /\ formErrors (filled "" "" false) = ∅
  /\ formErrors (passwordReset (sample_config false)
                   (sample_env 200 None (sample_body None ""))
                   (filled "" "" false)) !! "password"
     = Some "Required"
  /\ formErrors (passwordReset (sample_config false)
                   (sample_env 200 None (sample_body None ""))
                   (filled "" "" false)) !! "passwordConfirm"
     = Some "Required"
  /\ passwordReset (sample_config false) (sample_env 200 None (sample_body None ""))
       (filled "" "" false)
     <> filled "" "" false.
Proof.
  assert (Hpwd : formErrors (passwordReset (sample_config false)
                               (sample_env 200 None (sample_body None ""))
                               (filled "" "" false)) !! "password"
                 = Some "Required") by (vm_compute; reflexivity).
  repeat split; try (vm_compute; reflexivity).
  intros Heq. rewrite Heq in Hpwd. vm_compute in Hpwd. discriminate.
Qed.

(** C10, amended.  When the policy-acceptance flag is false,
    [passwordReset] sends no request, leaves the error message [err] and
    the form fields as they were, and changes nothing but the field
    annotations [formErrors]: each of the two password fields that is empty
    is marked as required, no other annotation is left, and with both
    fields filled in the annotations are emptied. *)
Theorem not_accepted_never_reaches_network (c : Config) (env : Env) (s : State) :
  accepted s = false ->
  let s' := passwordReset c env s in
  calls s' = calls s
  /\ err s' = err s
  /\ formValues s' = formValues s
  /\ s' = set_formErrors (formErrors s') s
  /\ formErrors s' !! "password" = required_annotation c (password (formValues s))
  /\ formErrors s' !! "passwordConfirm"
     = required_annotation c (passwordConfirm (formValues s))
  /\ (forall path,
        path <> "password" -> path <> "passwordConfirm" ->
        formErrors s' !! path = None)
  /\ (password (formValues s) <> "" -> passwordConfirm (formValues s) <> "" ->
      formErrors s' = ∅).
Proof.
  intros Hacc s'. subst s'.
  pose proof (schemaPassword_annotations c (formValues s)) as Hann.
  revert Hann. reset_tests c s; try congruence.
  - intros _. unfold required_annotation.
    apply String.eqb_neq in Hpwd, Hconfirm. rewrite Hpwd, Hconfirm.
    conjuncts; try (destruct s; reflexivity); auto.
  - intros (Hp & Hc & Hrest).
    conjuncts; try (destruct s; reflexivity); try assumption. tauto.
Qed.

Lemma not_accepted_never_reaches_network_witness :
  accepted (filled "short" "" false) = false
  /\ calls (passwordReset (sample_config false) (sample_env 200 None (sample_body None ""))
              (filled "short" "" false)) = []
  /\ err (passwordReset (sample_config false) (sample_env 200 None (sample_body None ""))
            (filled "short" "" false)) = ""
  /\ formErrors (passwordReset (sample_config false)
                   (sample_env 200 None (sample_body None ""))
                   (filled "short" "" false)) !! "password" = None
  /\ formErrors (passwordReset (sample_config false)
                   (sample_env 200 None (sample_body None ""))
                   (filled "short" "" false)) !! "passwordConfirm" = Some "Required".
Proof.
  split; [reflexivity|].
  destruct (not_accepted_never_reaches_network (sample_config false)
              (sample_env 200 None (sample_body None ""))
              (filled "short" "" false) eq_refl)
    as (Hcalls & Herr & _ & _ & Hpwd & Hconfirm & _).
  repeat split; assumption.
Defined.

(** C2, as stated: whenever the two fields differ, a password-mismatch
    error is reported.  The schema check comes first: with the confirmation
    left empty the field is marked as required, [err] stays empty and no
    mismatch is reported. *)
Lemma mismatch_error_not_always_reported :
  password (formValues (filled "Abcdefg123!" "" true))
    <> passwordConfirm (formValues (filled "Abcdefg123!" "" true))
  /\ err (passwordReset (sample_config false) (sample_env 200 None (sample_body None ""))
            (filled "Abcdefg123!" "" true)) = ""
  /\ err (passwordReset (sample_config false) (sample_env 200 None (sample_body None ""))
            (filled "Abcdefg123!" "" true)) <> t_passwordNoMatch sample_t
  /\ formErrors (passwordReset (sample_config false)
                   (sample_env 200 None (sample_body None ""))
                   (filled "Abcdefg123!" "" true)) !! "passwordConfirm"
     = Some (t_required sample_t).
Proof.
  repeat split; try discriminate; vm_compute; reflexivity.
Qed.

(** C2, amended.  When password and confirmation differ, [passwordReset]
    sends no request and leaves the form and the success flag alone; it
    reports the mismatch in [err] when both fields are filled in, the
    policy is accepted and the password has at most 256 characters. *)
Theorem mismatch_never_reaches_network (c : Config) (env : Env) (s : State) :
  password (formValues s) <> passwordConfirm (formValues s) ->
  let s' := passwordReset c env s in
  calls s' = calls s
  /\ formValues s' = formValues s
  /\ success s' = success s
  /\ (password (formValues s) <> "" -> passwordConfirm (formValues s) <> "" ->
      accepted s = true ->
      (String.length (password (formValues s)) <= 256)%nat ->
      err s' = t_passwordNoMatch (t c)).
Proof.
  intros Hne s'. subst s'. reset_tests c s; try congruence;
    repeat split; try reflexivity; intros; solve [congruence | lia | tauto].
Qed.

Lemma mismatch_never_reaches_network_witness :
  password (formValues (filled "Abcdefg123!" "Abcdefg123?" true))
    <> passwordConfirm (formValues (filled "Abcdefg123!" "Abcdefg123?" true))
  /\ calls (passwordReset (sample_config true) (sample_env 200 None (sample_body None ""))
              (filled "Abcdefg123!" "Abcdefg123?" true)) = []
  /\ err (passwordReset (sample_config true) (sample_env 200 None (sample_body None ""))
            (filled "Abcdefg123!" "Abcdefg123?" true)) = "Passwords do not match".
Proof.
  assert (Hne : password (formValues (filled "Abcdefg123!" "Abcdefg123?" true))
                <> passwordConfirm (formValues (filled "Abcdefg123!" "Abcdefg123?" true)))
    by discriminate.
  split; [exact Hne|].
  destruct (mismatch_never_reaches_network (sample_config true)
              (sample_env 200 None (sample_body None ""))
              (filled "Abcdefg123!" "Abcdefg123?" true) Hne) as (Hcalls & _ & _ & Herr).
  split; [exact Hcalls|].
  apply Herr; simpl; solve [discriminate | reflexivity | lia].
Defined.

(** C4, as stated: a password over 256 characters makes [passwordReset] set
    an error.  The acceptance test comes first: while the policy component
    has not accepted the password (here it is over the policy's maximum of
    128), the function returns with [err] and [formErrors] empty. *)
Lemma over_256_not_always_an_error :
  (256 < String.length long_password)%nat
  /\ In RuleLengthMax (validate long_password (policy (sample_config false)))
  /\ err (passwordReset (sample_config false) (sample_env 200 None (sample_body None ""))
            (filled long_password long_password false)) = ""
  /\ formErrors (passwordReset (sample_config false)
                   (sample_env 200 None (sample_body None ""))
                   (filled long_password long_password false)) = ∅
  /\ calls (passwordReset (sample_config false) (sample_env 200 None (sample_body None ""))
              (filled long_password long_password false)) = [].
Proof.
  split; [vm_compute; lia|].
  split; [vm_compute; tauto|].
  repeat split; vm_compute; reflexivity.
Qed.

(** C4, amended.  Whatever the policy, a password over 256 characters never
    reaches the network: [passwordReset] sends no request and leaves the
    form and the success flag alone.  It sets [err] to ["max 256"] when the
    confirmation is filled in and the policy is accepted. *)
Theorem over_256_never_reaches_network (c : Config) (env : Env) (s : State) :
  (256 < String.length (password (formValues s)))%nat ->
  let s' := passwordReset c env s in
  calls s' = calls s
  /\ formValues s' = formValues s
  /\ success s' = success s
  /\ (passwordConfirm (formValues s) <> "" -> accepted s = true ->
      err s' = "max 256").
Proof.
  intros Hlen s'. subst s'. reset_tests c s; try lia;
    repeat split; try reflexivity; intros; try congruence.
  exfalso. apply Hinvalid. split; [|assumption].
  intros Hempty. rewrite Hempty in Hlen. cbn in Hlen. lia.
Qed.

Lemma over_256_never_reaches_network_witness :
  (256 < String.length (password (formValues (filled long_password long_password true))))%nat
  /\ calls (passwordReset (sample_config false) (sample_env 200 None (sample_body None ""))
              (filled long_password long_password true)) = []
  /\ err (passwordReset (sample_config false) (sample_env 200 None (sample_body None ""))
            (filled long_password long_password true)) = "max 256".
Proof.
  assert (Hlen : (256 < String.length
                          (password (formValues (filled long_password long_password true))))%nat)
    by (vm_compute; lia).
  split; [exact Hlen|].
  destruct (over_256_never_reaches_network (sample_config false)
              (sample_env 200 None (sample_body None ""))
              (filled long_password long_password true) Hlen) as (Hcalls & _ & _ & Herr).
  split; [exact Hcalls|].
  apply Herr; [vm_compute; discriminate | reflexivity].
Defined.

(** C1, as stated: with MFA active and a reported user id that differs, the
    flow fails with the identity-mismatch error.  The status of the
    response is tested first: a refusal (here 401) that names another user
    ends the attempt with the backend's message. *)
Lemma identity_mismatch_error_not_always_reported :
  isMfa (sample_config true) = true
  /\ reported_user_id
       (fetch (sample_env 401 None (sample_body (Some "user-2") "Unauthorized"))
          (webauthnAuthStart (userId (sample_config true)) "PasswordReset"))
     <> Some (userId (sample_config true))
  /\ calls (passwordReset (sample_config true)
              (sample_env 401 None (sample_body (Some "user-2") "Unauthorized"))
              (filled "Abcdefg123!" "Abcdefg123!" true))
     = [webauthnAuthStart "user-1" "PasswordReset"]
  /\ err (passwordReset (sample_config true)
            (sample_env 401 None (sample_body (Some "user-2") "Unauthorized"))
            (filled "Abcdefg123!" "Abcdefg123!" true))
     = "Unauthorized"
  /\ err (passwordReset (sample_config true)
            (sample_env 401 None (sample_body (Some "user-2") "Unauthorized"))
            (filled "Abcdefg123!" "Abcdefg123!" true))
     <> "MFA user ID does not match - this should never happen".
Proof.
  repeat split; try discriminate; vm_compute; reflexivity.
Qed.

(** C1, amended.  With MFA active and an auth-start response whose reported
    user id differs from [userId], [passwordReset] sends at most the
    auth-start request, never the reset request, starts no assertion
    ([webauthnData] is left alone) and leaves form and success flag alone.
    When the form gets past the local checks, the request is sent; with a
    body that is JSON the loading flag is off at the end, and [err] is the
    identity-mismatch message if the response is ok (2xx) and the backend's
    message if it is not; with a body that is not JSON, which reports no
    user id at all, the attempt ends where the body is read, with [err]
    empty and the loading flag as it was. *)
Theorem mfa_identity_mismatch_blocks_reset (c : Config) (env : Env) (s : State) :
  isMfa c = true ->
  let start := webauthnAuthStart (userId c) "PasswordReset" in
  reported_user_id (fetch env start) <> Some (userId c) ->
  let s' := passwordReset c env s in
  (calls s' = calls s \/ calls s' = calls s ++ [start])
  /\ webauthnData s' = webauthnData s
  /\ success s' = success s
  /\ formValues s' = formValues s
  /\ (submittable s ->
      calls s' = calls s ++ [start]
      /\ match json (fetch env start) with
         | Some body =>
             isLoading s' = false
             /\ err s' = if ok (fetch env start)
                         then "MFA user ID does not match - this should never happen"
                         else message body
         | None => isLoading s' = isLoading s /\ err s' = ""
         end).
Proof.
  intros Hmfa start Hid s'. subst s' start. unfold reported_user_id in Hid.
  reset_tests c s.
  - conjuncts; auto. intros (_ & _ & _ & Hlen & _). lia.
  - rewrite Hmfa. unfold send. simp_state.
    destruct (json (fetch env (webauthnAuthStart (userId c) "PasswordReset")))
      as [body|]; simp_state; [|conjuncts; auto].
    destruct (ok (fetch env (webauthnAuthStart (userId c) "PasswordReset"))); simp_state.
    + rewrite bool_decide_eq_false_2 by exact Hid. simp_state.
      conjuncts; auto.
    + conjuncts; auto.
  - conjuncts; auto. intros (_ & _ & _ & _ & Hsame). congruence.
  - conjuncts; auto. intros (_ & _ & Hacc & _). congruence.
  - conjuncts; auto. intros (Hp & Hc & _). tauto.
Qed.

Lemma mfa_identity_mismatch_blocks_reset_witness :
  isMfa (sample_config true) = true
  /\ calls (passwordReset (sample_config true)
              (sample_env 200 None (sample_body (Some "user-2") ""))
              (filled "Abcdefg123!" "Abcdefg123!" true))
     = [webauthnAuthStart "user-1" "PasswordReset"]
  /\ err (passwordReset (sample_config true)
            (sample_env 200 None (sample_body (Some "user-2") ""))
            (filled "Abcdefg123!" "Abcdefg123!" true))
     = "MFA user ID does not match - this should never happen".
Proof.
  split; [reflexivity|].
  assert (Hid : reported_user_id
                  (fetch (sample_env 200 None (sample_body (Some "user-2") ""))
                     (webauthnAuthStart (userId (sample_config true)) "PasswordReset"))
                <> Some (userId (sample_config true))) by discriminate.
  destruct (mfa_identity_mismatch_blocks_reset (sample_config true)
              (sample_env 200 None (sample_body (Some "user-2") ""))
              (filled "Abcdefg123!" "Abcdefg123!" true) eq_refl Hid)
    as (_ & _ & _ & _ & Hgate).
  destruct Hgate as (Hcalls & _ & Herr).
  { unfold submittable. simpl. repeat split; solve [discriminate | lia]. }
  split; [exact Hcalls | exact Herr].
Defined.

(** *** What the handlers leave alone *)

(** Case analysis along the tests of a handler. *)
Ltac handler_cases :=
  unfold send;
  repeat (simp_state; try reflexivity; try assumption;
          match goal with
          | |- context [match ?x with _ => _ end] => destruct x eqn:?
          end).

Lemma onSubmitFinish_isLoading (c : Config) (env : Env) (mfaCode : option string)
    (s : State) :
  isLoading (onSubmitFinish c env mfaCode s) = true
  <-> unparsed_refusal (fetch env (reset_request c s mfaCode)).
Proof.
  unfold onSubmitFinish, send, reset_request, unparsed_refusal. simp_state.
  destruct (ok (fetch env _)); simp_state.
  - split; [discriminate|intros [? _]; discriminate].
  - destruct (json (fetch env _)); simp_state.
    + split; [discriminate|intros [_ ?]; discriminate].
    + split; auto.
Qed.

Lemma onSubmitFinish_timers (c : Config) (env : Env) (mfaCode : option string)
    (s : State) :
  timers (onSubmitFinish c env mfaCode s) = timers s.
Proof. unfold onSubmitFinish. handler_cases. Qed.

Lemma passwordReset_isLoading (c : Config) (env : Env) (s : State) :
  isLoading s = false ->
  isLoading (passwordReset c env s) = true <-> leaves_loading c s (click_save env).
Proof.
  intros Hoff. cbn [leaves_loading].
  destruct (decide (submittable s)) as [Hyes|Hno].
  - rewrite (passwordReset_checked c env s Hyes).
    destruct (isMfa c).
    + split; [|intros [? _]; discriminate].
      intros Hon. exfalso. revert Hon. handler_cases; simp_state; congruence.
    + rewrite onSubmitFinish_isLoading. unfold reset_request. simp_state. tauto.
  - destruct (passwordReset_early c env s Hno) as (e & fe & ->). simp_state.
    rewrite Hoff. split; [discriminate|tauto].
Qed.

Lemma handleRegisterPasskey_isLoading (c : Config) (env : Env) (s : State) :
  isLoading (handleRegisterPasskey c env s) = isLoading s.
Proof. unfold handleRegisterPasskey, onWebauthnError. handler_cases. Qed.

Lemma handler_isLoading (c : Config) (ev : Event) (s : State) :
  isLoading s = false ->
  isLoading (handler c ev s) = true <-> leaves_loading c s ev.
Proof.
  intros Hoff.
  destruct ev; cbn [handler leaves_loading];
    try (simp_state; rewrite Hoff; split; [discriminate|tauto]).
  - rewrite handleRegisterPasskey_isLoading, Hoff. split; [discriminate|tauto].
  - apply passwordReset_isLoading, Hoff.
  - unfold onWebauthnSuccess. destruct res as [r|].
    + rewrite onSubmitFinish_isLoading. reflexivity.
    + rewrite Hoff. split; [discriminate|tauto].
Qed.

Lemma handler_timers (c : Config) (ev : Event) (s : State) :
  timers (handler c ev s) = timers s.
Proof.
  destruct ev; cbn [handler]; try reflexivity.
  - unfold handleRegisterPasskey, onWebauthnError. handler_cases.
  - unfold passwordReset, onSubmitFinish. handler_cases.
  - unfold onWebauthnSuccess. destruct res; [|reflexivity].
    rewrite onSubmitFinish_timers. reflexivity.
Qed.

Lemma react_isLoading (before s : State) :
  isLoading (react before s) = isLoading s.
Proof. unfold react. handler_cases. Qed.

Lemma react_success (before s : State) :
  success (react before s) = success s.
Proof. unfold react. handler_cases. Qed.


Lemma react_timers (before s : State) :
  timers (react before s)
  = if success s && negb (success before)
    then timers s ++ [(redirectAfterSuccess, 5000)] else timers s.
Proof.
  unfold react.
  destruct (negb (String.eqb (accountTypeNew s) (accountTypeNew before))
            && Js.truthy (Some (accountTypeNew s)));
    simp_state;
    match goal with
    | |- context [if ?b then set_showCopy true _ else _] => destruct b
    end;
    simp_state; destruct (success s), (success before); reflexivity.
Qed.

(** When the account type did not change, the reactive blocks leave the
    form alone. *)
Lemma react_formValues (before s : State) :
  accountTypeNew s = accountTypeNew before ->
  formValues (react before s) = formValues s.
Proof.
  intros Hsame. unfold react. rewrite Hsame, String.eqb_refl. handler_cases.
Qed.

Lemma dispatch_isLoading (c : Config) (s : State) (ev : Event) :
  isLoading s = false ->
  isLoading (dispatch c s ev) = true <-> leaves_loading c s ev.
Proof.
  intros Hoff. unfold dispatch. rewrite react_isLoading.
  apply handler_isLoading, Hoff.
Qed.

(** C7 at a refusal whose body is not JSON.  [onSubmitFinish] turns the
    loading flag on, and turns it off in its last statement; [await
    res.json()] in the branch of a response that is not ok stands before
    that statement and outside any [try], so a refusal with a body that is
    not JSON ends the attempt with the flag on, no error shown and nothing
    else changed.  That path is the only one: from a state with the flag
    off, an event leaves the flag on exactly when its handler reaches
    [onSubmitFinish] and the reset is answered by such a refusal. *)
Theorem loading_flag_left_on :
  (let s := filled "Abcdefg123!" "Abcdefg123!" true in
   let s' := dispatch (sample_config false) s (click_save gateway_env) in
   isLoading s = false
   /\ isLoading s' = true
   /\ err s' = ""
   /\ success s' = false
   /\ formValues s' = formValues s
   /\ calls s' = [reset_request (sample_config false) s None])
  /\ (forall c env mfaCode s,
        isLoading (onSubmitFinish c env mfaCode s) = true
        <-> unparsed_refusal (fetch env (reset_request c s mfaCode)))
  /\ (forall c s ev,
        isLoading s = false ->
        isLoading (dispatch c s ev) = true <-> leaves_loading c s ev).
Proof.
  split; [|split].
  - repeat split.
  - apply onSubmitFinish_isLoading.
  - apply dispatch_isLoading.
Qed.

(** The requests [handleRegisterPasskey] sends: none, the start request, or
    the start request and the finish request, the last only in the two
    outcomes named. *)
Lemma handleRegisterPasskey_calls (c : Config) (env : Env) (s : State) :
  let s' := handleRegisterPasskey c env s in
  calls s' = calls s
  \/ (exists start, calls s' = calls s ++ [start])
  \/ (exists start data,
        calls s' = (calls s ++ [start])
                   ++ [webauthnRegFinishAccReset (userId c) data (csrf c)]
        /\ s' = if status (fetch env (webauthnRegFinishAccReset (userId c) data (csrf c)))
                   =? 201
                then set_success true (set_formValues emptyForm
                       (set_calls (calls s') (set_formErrors ∅ (set_err "" s))))
                else onWebauthnError c
                       (set_calls (calls s') (set_formErrors ∅ (set_err "" s)))).
Proof.
  unfold handleRegisterPasskey, onWebauthnError, send. simp_state.
  destruct (schema_validate (schemaPasskey c) (formValues s)); simp_state; [|auto].
  destruct (String.length (passkeyName (formValues s)) <? 2)%nat; simp_state; [auto|].
  match goal with |- context [if ?b then _ else _] => destruct b end;
    simp_state; [|eauto].
  match goal with |- context [match ?x with _ => _ end] => destruct x end;
    simp_state; [|eauto].
  match goal with |- context [match ?x with _ => _ end] => destruct x end;
    simp_state; [|eauto].
  match goal with |- context [match ?x with _ => _ end] => destruct x end;
    simp_state; [|eauto].
  match goal with |- context [match ?x with _ => _ end] => destruct x end;
    simp_state; [|eauto].
  right. right. eexists _, _. split.
  - match goal with |- context [if ?b then _ else _] => destruct b end; reflexivity.
  - match goal with |- context [if ?b then _ else _] => destruct b end; reflexivity.
Qed.

(** C5.  The error callback of the authenticator ceremony leaves the three
    form fields as they are (also after the reactive blocks); a 2xx
    response to [resetPassword] and a 201 response to
    [webauthnRegFinishAccReset] leave all three fields empty. *)
Theorem form_kept_on_error_cleared_on_success :
  (forall c s,
      formValues (onWebauthnError c s) = formValues s
      /\ formValues (dispatch c s webauthn_onError) = formValues s)
  /\ (forall c env mfaCode s,
        ok (fetch env (resetPassword (userId c)
                         {| rp_password := password (formValues s);
                            rp_magic_link_id := magicLinkId c;
                            rp_mfa_code := mfaCode |} (csrf c))) = true ->
        formValues (onSubmitFinish c env mfaCode s) = emptyForm)
  /\ (forall c env s start data,
        calls (handleRegisterPasskey c env s)
        = calls s ++ [start; webauthnRegFinishAccReset (userId c) data (csrf c)] ->
        status (fetch env (webauthnRegFinishAccReset (userId c) data (csrf c))) = 201 ->
        formValues (handleRegisterPasskey c env s) = emptyForm).
Proof.
  split; [|split].
  - intros c s. split; [reflexivity|].
    unfold dispatch. rewrite react_formValues; reflexivity.
  - intros c env mfaCode s Hok. unfold onSubmitFinish, send. simp_state.
    rewrite Hok. reflexivity.
  - intros c env s start data Hcalls Hstatus.
    destruct (handleRegisterPasskey_calls c env s) as [Hnone|[[st Hone]|(st & d & Htwo & Hs)]].
    + rewrite Hnone in Hcalls. rewrite <- (app_nil_r (calls s)) in Hcalls at 1.
      apply app_inv_head in Hcalls. discriminate.
    + rewrite Hone in Hcalls. apply app_inv_head in Hcalls. discriminate.
    + rewrite Htwo, <- app_assoc in Hcalls. apply app_inv_head in Hcalls.
      injection Hcalls as _ Hd. subst d.
      rewrite Hs, Hstatus. reflexivity.
Qed.

(** The three parts of [form_kept_on_error_cleared_on_success] at concrete
    inputs: an error callback on a filled form, an accepted reset, and a
    passkey registration that the backend answers with 201. *)
Lemma form_kept_on_error_cleared_on_success_witness :
  formValues (onWebauthnError (sample_config true) (filled "Abcdefg123!" "Abcdefg123!" true))
  = {| passkeyName := ""; password := "Abcdefg123!"; passwordConfirm := "Abcdefg123!" |}
  /\ formValues (onSubmitFinish (sample_config true)
                   (sample_env 200 None (sample_body None "")) (Some "mfa-code")
                   (filled "Abcdefg123!" "Abcdefg123!" true)) = emptyForm
  /\ formValues (handleRegisterPasskey (sample_config false) passkey_env passkey_form)
     = emptyForm.
Proof.
  destruct form_kept_on_error_cleared_on_success as (Herror & Hreset & Hpasskey).
  split; [|split].
  - apply (Herror (sample_config true) (filled "Abcdefg123!" "Abcdefg123!" true)).
  - apply Hreset. reflexivity.
  - eapply Hpasskey; reflexivity.
Defined.




(** *** The generate button *)

Lemma generate_fields (rnd : Random) (c : Config) (s : State) :
  passwordConfirm (formValues (generate rnd c s))
  = password (formValues (generate rnd c s))
  /\ passkeyName (formValues (generate rnd c s)) = passkeyName (formValues s).
Proof. split; reflexivity. Qed.

Lemma generate_length (rnd : Random) (c : Config) (s : State) :
  String.length (password (formValues (generate rnd c s)))
  = Nat.max (Z.to_nat (Z.max (length_min (policy c)) 24))
      (Z.to_nat (include_lower_case (policy c))
       + Z.to_nat (include_upper_case (policy c))
       + Z.to_nat (include_digits (policy c))
       + Z.to_nat (include_special (policy c))).
Proof.
  unfold generate. simp_state. rewrite generatePassword_length.
  destruct (Z.ltb_spec 24 (length_min (policy c))); lia.
Qed.

(** What the generator gets right: when the policy's maximum is at least
    the length asked for, and that length has room for the required
    characters, the generated password violates no rule. *)
Lemma generate_valid (rnd : Random) (c : Config) (s : State) :
  0 <= include_lower_case (policy c) -> 0 <= include_upper_case (policy c) ->
  0 <= include_digits (policy c) -> 0 <= include_special (policy c) ->
  include_lower_case (policy c) + include_upper_case (policy c)
  + include_digits (policy c) + include_special (policy c)
  <= Z.max (length_min (policy c)) 24 ->
  Z.max (length_min (policy c)) 24 <= length_max (policy c) ->
  validate (password (formValues (generate rnd c s))) (policy c) = [].
Proof.
  intros Hl Hu Hd Hs Hroom Hmax.
  pose proof (generate_length rnd c s) as Hlen.
  unfold validate, missing. rewrite Hlen.
  unfold generate. simp_state.
  destruct (generatePassword_classes rnd
              (if 24 <? length_min (policy c) then length_min (policy c) else 24)
              (include_lower_case (policy c)) (include_upper_case (policy c))
              (include_digits (policy c)) (include_special (policy c)))
    as (Hlower & Hupper & Hdigit & Hspecial).
  repeat match goal with
         | |- context [?a <? ?b] => destruct (Z.ltb_spec a b); try lia
         end;
    rewrite ?Hlower, ?Hupper, ?Hdigit, ?Hspecial by lia; reflexivity.
Qed.

(** C3 at the policy [8, 16, 1, 1, 1, 1, 3].  [generate] asks for 24
    characters whatever the policy's maximum, so both fields receive a
    password of 24 characters, and validation against the same policy
    reports the maximum length, and nothing else, as violated. *)
Theorem generate_exceeds_length_max (rnd : Random) (s : State) :
  String.length (password (formValues (generate rnd tight_config s))) = 24%nat
  /\ passwordConfirm (formValues (generate rnd tight_config s))
     = password (formValues (generate rnd tight_config s))
  /\ validate (password (formValues (generate rnd tight_config s))) tight_policy
     = [RuleLengthMax].
Proof.
  assert (Hpwd : password (formValues (generate rnd tight_config s))
                 = generatePassword rnd 24 1 1 1 1) by reflexivity.
  assert (Hlen : String.length (generatePassword rnd 24 1 1 1 1) = 24%nat)
    by (rewrite generatePassword_length; reflexivity).
  destruct (generatePassword_classes rnd 24 1 1 1 1)
    as (Hlower & Hupper & Hdigit & Hspecial).
  rewrite Hpwd. split; [exact Hlen|]. split; [reflexivity|].
  unfold validate, missing. rewrite Hlen.
  rewrite Hlower, Hupper, Hdigit, Hspecial by lia. reflexivity.
Qed.

(** ** Further properties of the page *)

(** *** Passkey registration *)

(** The passkey name gets past the two local checks of
    [handleRegisterPasskey]. *)
Definition name_accepted (c : Config) (s : State) : Prop :=
  passkeyName (formValues s) <> ""
  /\ REGEX_NAME c (passkeyName (formValues s)) = true
  /\ (2 <= String.length (passkeyName (formValues s)))%nat.

(** The request that starts a registration, and the one that finishes it
    with the credential the authenticator created. *)
Definition start_request (c : Config) (s : State) : Request :=
  webauthnRegStartAccReset (userId c)
    {| rs_passkey_name := passkeyName (formValues s);
       rs_magic_link_id := magicLinkId c |} (csrf c).

Definition finish_request (c : Config) (s : State)
    (challengePk : PublicKeyCredential (list Byte.byte)) : Request :=
  webauthnRegFinishAccReset (userId c)
    {| rf_passkey_name := passkeyName (formValues s);
       rf_data := encode_credential challengePk;
       rf_magic_link_id := magicLinkId c |} (csrf c).

(** The ceremony that follows a start response: the challenge of the body,
    decoded, handed to the authenticator.  [None] when the body is not
    JSON or has no challenge, when a field does not decode, or when the
    authenticator refuses (each of them an exception in the script). *)
Definition ceremony (env : Env) (res : Response)
    : option (PublicKeyCredential (list Byte.byte)) :=
  match json res with
  | Some body =>
      match publicKey body with
      | Some pk =>
          match decode_challenge pk with
          | Some challenge => credentials_create env challenge
          | None => None
          end
      | None => None
      end
  | None => None
  end.

Lemma schemaPasskey_valid (c : Config) (v : FormValues) :
  schema_validate (schemaPasskey c) v = []
  <-> passkeyName v <> "" /\ REGEX_NAME c (passkeyName v) = true.
Proof.
  unfold schema_validate, schemaPasskey. cbn.
  destruct (String.eqb_spec (passkeyName v) "") as [Hp|Hp],
           (REGEX_NAME c (passkeyName v)); cbn;
    split; try discriminate; try tauto; intros [? ?]; congruence.
Qed.

Lemma schemaPasskey_annotation (c : Config) (v : FormValues) :
  schema_validate (schemaPasskey c) v <> [] ->
  is_Some (extractFormErrors (schema_validate (schemaPasskey c) v) !! "passkeyName").
Proof.
  unfold schema_validate, schemaPasskey, extractFormErrors. cbn.
  destruct (String.eqb (passkeyName v) ""), (REGEX_NAME c (passkeyName v)); cbn;
    intros Hne; try congruence; eexists; apply lookup_insert_eq.
Qed.

(** The tests of [handleRegisterPasskey] up to the start request. *)
Ltac register_tests c s :=
  unfold handleRegisterPasskey, onWebauthnError, send; simp_state;
  destruct (schema_validate (schemaPasskey c) (formValues s)) as [|? ?] eqn:Hschema;
  [ apply schemaPasskey_valid in Hschema as [Hname Hregex]; simp_state;
    destruct (Nat.ltb_spec (String.length (passkeyName (formValues s))) 2)
      as [Hshort|Hlong]; simp_state
  | assert (Hinvalid : ~ (passkeyName (formValues s) <> ""
                          /\ REGEX_NAME c (passkeyName (formValues s)) = true))
      by (rewrite <- (schemaPasskey_valid c), Hschema; discriminate);
    simp_state ].

(** A passkey name that is empty, that the name pattern refuses, or that
    has fewer than two characters never reaches the network:
    [handleRegisterPasskey] sends nothing and leaves form, success flag and
    pending assertion alone.  A name the schema refuses is annotated at its
    field and [err] is left empty; a name the schema accepts but that is
    too short gives the name error in [err]. *)
Theorem passkey_name_checked_before_network (c : Config) (env : Env) (s : State) :
  ~ name_accepted c s ->
  let s' := handleRegisterPasskey c env s in
  calls s' = calls s
  /\ formValues s' = formValues s
  /\ success s' = success s
  /\ webauthnData s' = webauthnData s
  /\ (passkeyName (formValues s) = ""
      \/ REGEX_NAME c (passkeyName (formValues s)) = false ->
      err s' = "" /\ is_Some (formErrors s' !! "passkeyName"))
  /\ (passkeyName (formValues s) <> "" ->
      REGEX_NAME c (passkeyName (formValues s)) = true ->
      err s' = t_mfa_passkeyNameErr (t c) /\ formErrors s' = ∅).
Proof.
  intros Hno s'. subst s'.
  assert (Hannot : forall errors,
             schema_validate (schemaPasskey c) (formValues s) = errors ->
             errors <> [] -> is_Some (extractFormErrors errors !! "passkeyName")).
  { intros errors <-. apply schemaPasskey_annotation. }
  register_tests c s.
  - conjuncts; try reflexivity; [|auto].
    intros [Hempty|Hrefused]; congruence.
  - exfalso. apply Hno. unfold name_accepted. auto.
  - conjuncts; try reflexivity; [|tauto].
    intros _. split; [reflexivity|]. apply (Hannot _ eq_refl). discriminate.
Qed.

Lemma passkey_name_checked_before_network_witness :
  ~ name_accepted (sample_config false)
      (set_formValues {| passkeyName := "k"; password := ""; passwordConfirm := "" |} init)
  /\ calls (handleRegisterPasskey (sample_config false) passkey_env
              (set_formValues
                 {| passkeyName := "k"; password := ""; passwordConfirm := "" |} init))
     = []
  /\ err (handleRegisterPasskey (sample_config false) passkey_env
            (set_formValues
               {| passkeyName := "k"; password := ""; passwordConfirm := "" |} init))
     = "10 to 32 non-special characters".
Proof.
  assert (Hno : ~ name_accepted (sample_config false)
                    (set_formValues
                       {| passkeyName := "k"; password := ""; passwordConfirm := "" |} init)).
  { intros (_ & _ & Hlen). simpl in Hlen. lia. }
  split; [exact Hno|].
  destruct (passkey_name_checked_before_network (sample_config false) passkey_env
              (set_formValues
                 {| passkeyName := "k"; password := ""; passwordConfirm := "" |} init) Hno)
    as (Hcalls & _ & _ & _ & _ & Hshort).
  split; [exact Hcalls|]. apply Hshort; [discriminate | reflexivity].
Defined.

(** [handleRegisterPasskey] on an accepted name, by the outcome of the two
    requests and of the ceremony between them. *)
Lemma handleRegisterPasskey_accepted (c : Config) (env : Env) (s : State) :
  name_accepted c s ->
  let started :=
    set_calls (calls s ++ [start_request c s]) (set_formErrors ∅ (set_err "" s)) in
  handleRegisterPasskey c env s
  = if status (fetch env (start_request c s)) =? 200 then
      match ceremony env (fetch env (start_request c s)) with
      | Some challengePk =>
          let finished :=
            set_calls (calls started ++ [finish_request c s challengePk]) started in
          if status (fetch env (finish_request c s challengePk)) =? 201
          then set_success true (set_formValues emptyForm finished)
          else onWebauthnError c finished
      | None => started
      end
    else onWebauthnError c started.
Proof.
  intros (Hfilled & Hmatch & Hlen) started. subst started.
  unfold ceremony, start_request, finish_request.
  register_tests c s; [lia | | tauto].
  destruct (status (fetch env _) =? 200); [|reflexivity].
  destruct (json (fetch env _)) as [body|]; [|reflexivity].
  destruct (publicKey body) as [pk|]; [|reflexivity].
  destruct (decode_challenge pk) as [challenge|]; [|reflexivity].
  destruct (credentials_create env challenge) as [challengePk|]; [|reflexivity].
  simp_state. reflexivity.
Qed.

(** For an accepted name the start request, carrying the name and the magic
    link, is sent first, and the finish request is the only other one: it
    is sent exactly when the start response has status 200 and the ceremony
    yields a credential.  That credential was created for the decoded
    challenge of the response, with user verification required; the finish
    request carries the same name and magic link, and the credential's three
    binary fields as texts that decode back to them. *)
Theorem passkey_finish_follows_ceremony (c : Config) (env : Env) (s : State) :
  name_accepted c s ->
  let s' := handleRegisterPasskey c env s in
  let res := fetch env (start_request c s) in
  match (if status res =? 200 then ceremony env res else None) with
  | Some challengePk =>
      calls s' = calls s ++ [start_request c s; finish_request c s challengePk]
      /\ (exists body pk challenge,
            json res = Some body
            /\ publicKey body = Some pk
            /\ decode_challenge pk = Some challenge
            /\ pk_userVerification challenge = "required"
            /\ credentials_create env challenge = Some challengePk)
      /\ Base64Url.base64UrlSafeToArrBuf (rawId (encode_credential challengePk))
         = Some (rawId challengePk)
      /\ Base64Url.base64UrlSafeToArrBuf (attestationObject (encode_credential challengePk))
         = Some (attestationObject challengePk)
      /\ Base64Url.base64UrlSafeToArrBuf (clientDataJSON (encode_credential challengePk))
         = Some (clientDataJSON challengePk)
  | None => calls s' = calls s ++ [start_request c s]
  end.
Proof.
  intros Hname s' res. subst s' res.
  rewrite (handleRegisterPasskey_accepted c env s Hname).
  destruct (status (fetch env (start_request c s)) =? 200); [|reflexivity].
  destruct (ceremony env (fetch env (start_request c s))) as [challengePk|] eqn:Hcer;
    [|reflexivity].
  split.
  { destruct (status (fetch env (finish_request c s challengePk)) =? 201);
      simp_state; rewrite <- app_assoc; reflexivity. }
  split.
  { unfold ceremony in Hcer.
    destruct (json (fetch env (start_request c s))) as [body|]; [|discriminate].
    destruct (publicKey body) as [pk|] eqn:Hpk; [|discriminate].
    destruct (decode_challenge pk) as [challenge|] eqn:Hdec; [|discriminate].
    exists body, pk, challenge. repeat split; try assumption.
    apply (decode_challenge_verification pk), Hdec. }
  cbn. rewrite !Base64Url.decode_encode. auto.
Qed.

Lemma passkey_finish_follows_ceremony_witness :
  calls (handleRegisterPasskey (sample_config false) passkey_env passkey_form)
  = [ webauthnRegStartAccReset "user-1"
        {| rs_passkey_name := "my-key"; rs_magic_link_id := "magic-link-1" |}
        "csrf-token";
      webauthnRegFinishAccReset "user-1"
        {| rf_passkey_name := "my-key";
           rf_data := {| pkc_id := "credential-1"; rawId := "AQI";
                         attestationObject := "o2Nm"; clientDataJSON := "e30";
                         pkc_type := "public-key" |};
           rf_magic_link_id := "magic-link-1" |}
        "csrf-token" ].
Proof.
  assert (Hname : name_accepted (sample_config false) passkey_form).
  { unfold name_accepted. simpl. repeat split; [discriminate | lia]. }
  pose proof (passkey_finish_follows_ceremony (sample_config false) passkey_env
                passkey_form Hname) as Hcalls.
  apply Hcalls.
Defined.

(** How a registration with an accepted name can fail.  A start response
    other than 200, or a finish response other than 201, gives the
    registration error in [err] and drops a pending assertion.  A ceremony
    that yields no credential (a body that is not JSON or has no challenge,
    a field that does not decode, an authenticator that refuses or is
    cancelled) ends the handler where it stands: [err] is left empty and nothing tells the user.
    In all three cases form and success flag stay as they were; only a 201
    sets the success flag. *)
Theorem passkey_failures (c : Config) (env : Env) (s : State) :
  name_accepted c s ->
  let s' := handleRegisterPasskey c env s in
  let res := fetch env (start_request c s) in
  (status res <> 200 ->
   err s' = t_mfa_errorReg (t c) /\ webauthnData s' = None
   /\ formValues s' = formValues s /\ success s' = success s)
  /\ (status res = 200 -> ceremony env res = None ->
      err s' = "" /\ webauthnData s' = webauthnData s
      /\ formValues s' = formValues s /\ success s' = success s)
  /\ (forall challengePk,
        status res = 200 -> ceremony env res = Some challengePk ->
        if status (fetch env (finish_request c s challengePk)) =? 201
        then success s' = true /\ formValues s' = emptyForm /\ err s' = ""
        else err s' = t_mfa_errorReg (t c) /\ webauthnData s' = None
             /\ formValues s' = formValues s /\ success s' = success s).
Proof.
  intros Hname s' res. subst s' res.
  rewrite (handleRegisterPasskey_accepted c env s Hname).
  destruct (Z.eqb_spec (status (fetch env (start_request c s))) 200) as [H200|Hnot].
  - split; [congruence|]. split.
    + intros _ ->. auto.
    + intros challengePk _ ->.
      destruct (status (fetch env (finish_request c s challengePk)) =? 201); auto.
  - split; [auto|]. split; congruence.
Qed.

(** An authenticator that refuses: [passkey_env] otherwise. *)
Definition refusing_env : Env :=
  {| fetch := fetch passkey_env; credentials_create := fun _ => None |}.

Lemma passkey_failures_witness :
  err (handleRegisterPasskey (sample_config false) refusing_env passkey_form) = ""
  /\ success (handleRegisterPasskey (sample_config false) refusing_env passkey_form)
     = false
  /\ err (handleRegisterPasskey (sample_config false)
            (sample_env 500 None (sample_body None "")) passkey_form)
     = "Error starting the Registration process".
Proof.
  assert (Hname : name_accepted (sample_config false) passkey_form).
  { unfold name_accepted. simpl. repeat split; [discriminate | lia]. }
  destruct (passkey_failures (sample_config false) refusing_env passkey_form Hname)
    as (_ & Hsilent & _).
  destruct (passkey_failures (sample_config false)
              (sample_env 500 None (sample_body None "")) passkey_form Hname)
    as (Hrefused & _).
  destruct (Hsilent eq_refl eq_refl) as (Herr & _ & _ & Hsuccess).
  destruct Hrefused as (Herr500 & _); [discriminate|].
  repeat split; assumption.
Defined.

(** *** Password reset: what is sent, and when *)

Lemma onSubmitFinish_calls (c : Config) (env : Env) (mfaCode : option string)
    (s : State) :
  calls (onSubmitFinish c env mfaCode s) = calls s ++ [reset_request c s mfaCode].
Proof. unfold onSubmitFinish, reset_request. handler_cases. Qed.

(** [passwordReset] reaches the network exactly when the form passes the
    local checks, and then with exactly one request: the auth-start request
    with purpose ["PasswordReset"] when MFA is active, and otherwise the
    reset request, carrying the password of the form, the magic link, the
    CSRF token and no MFA code.  When the form does not pass, nothing but
    [err] and the field annotations can change. *)
Theorem reset_sends_one_request_when_checked (c : Config) (env : Env) (s : State) :
  let s' := passwordReset c env s in
  (submittable s ->
   calls s' = calls s ++ [if isMfa c then auth_start_request c
                          else reset_request c s None])
  /\ (~ submittable s ->
      calls s' = calls s
      /\ exists e annotations, s' = set_err e (set_formErrors annotations s)).
Proof.
  intros s'. subst s'. split.
  - intros Hok. rewrite (passwordReset_checked c env s Hok).
    destruct (isMfa c).
    + destruct (json _); [|reflexivity].
      destruct (ok _); [destruct (bool_decide _)|]; reflexivity.
    + rewrite onSubmitFinish_calls. reflexivity.
  - intros Hno. destruct (passwordReset_early c env s Hno) as (e & fe & ->).
    split; [reflexivity|]. exists e, fe. reflexivity.
Qed.

Lemma reset_sends_one_request_when_checked_witness :
  calls (passwordReset (sample_config false) (sample_env 200 None (sample_body None ""))
           (filled "Abcdefg123!" "Abcdefg123!" true))
  = [resetPassword "user-1"
       {| rp_password := "Abcdefg123!"; rp_magic_link_id := "magic-link-1";
          rp_mfa_code := None |} "csrf-token"]
  /\ calls (passwordReset (sample_config true) (sample_env 200 None (sample_body None ""))
              (filled "Abcdefg123!" "" true)) = [].
Proof.
  split.
  - apply (reset_sends_one_request_when_checked (sample_config false)
             (sample_env 200 None (sample_body None ""))
             (filled "Abcdefg123!" "Abcdefg123!" true)).
    unfold submittable. simpl. repeat split; solve [discriminate | lia].
  - apply (reset_sends_one_request_when_checked (sample_config true)
             (sample_env 200 None (sample_body None ""))
             (filled "Abcdefg123!" "" true)).
    intros (_ & Hconfirm & _). apply Hconfirm. reflexivity.
Defined.

(** The step-up flow end to end.  With MFA active, a form that passes the
    checks and an ok auth-start response whose body is JSON and reports the
    session's own user: [passwordReset] sends the auth-start request only,
    stores the response body as the pending assertion and clears [err],
    without touching form, success flag or loading flag.  When the
    assertion then succeeds with some result, the pending assertion is
    dropped and the reset request is sent with the form's password and the
    result's code as MFA code.  If that response is ok the form is emptied
    and the loading flag is off; if it is a refusal with a JSON body the
    backend's message is in [err], the form is kept and the loading flag is
    off; if it is a refusal whose body is not JSON the form is kept, no
    error is shown and the loading flag stays on. *)
Theorem mfa_code_reaches_reset (c : Config) (env env2 : Env) (s : State)
    (r : WebauthnResult) (body : Body) :
  isMfa c = true -> submittable s ->
  ok (fetch env (auth_start_request c)) = true ->
  json (fetch env (auth_start_request c)) = Some body ->
  user_id body = Some (userId c) ->
  let s1 := passwordReset c env s in
  let s2 := onWebauthnSuccess c env2 (Some r) s1 in
  (calls s1 = calls s ++ [auth_start_request c]
   /\ webauthnData s1 = Some body
   /\ err s1 = "" /\ formValues s1 = formValues s
   /\ success s1 = success s /\ isLoading s1 = isLoading s)
  /\ calls s2 = calls s ++ [auth_start_request c; reset_request c s (code r)]
  /\ webauthnData s2 = None
  /\ if ok (fetch env2 (reset_request c s (code r)))
     then isLoading s2 = false
          /\ success s2 = true /\ formValues s2 = emptyForm /\ err s2 = ""
     else match json (fetch env2 (reset_request c s (code r))) with
          | Some refusal =>
              isLoading s2 = false /\ err s2 = message refusal
              /\ formValues s2 = formValues s /\ success s2 = success s
          | None =>
              isLoading s2 = true /\ err s2 = ""
              /\ formValues s2 = formValues s /\ success s2 = success s
          end.
Proof.
  intros Hmfa Hchecked Hok Hbody Hid s1 s2. subst s2 s1.
  rewrite (passwordReset_checked c env s Hchecked), Hmfa, Hbody, Hok.
  rewrite bool_decide_eq_true_2 by exact Hid.
  split; [conjuncts; reflexivity|].
  unfold onWebauthnSuccess, onSubmitFinish, send, reset_request. simp_state.
  destruct (ok (fetch env2 _)); simp_state;
    [|destruct (json (fetch env2 _)); simp_state];
    conjuncts; try reflexivity; rewrite <- app_assoc; reflexivity.
Qed.

Lemma mfa_code_reaches_reset_witness :
  calls (onWebauthnSuccess (sample_config true)
           (sample_env 200 None (sample_body None "")) (Some {| code := Some "mfa-123" |})
           (passwordReset (sample_config true)
              (sample_env 200 None (sample_body (Some "user-1") ""))
              (filled "Abcdefg123!" "Abcdefg123!" true)))
  = [webauthnAuthStart "user-1" "PasswordReset";
     resetPassword "user-1"
       {| rp_password := "Abcdefg123!"; rp_magic_link_id := "magic-link-1";
          rp_mfa_code := Some "mfa-123" |} "csrf-token"].
Proof.
  assert (Hchecked : submittable (filled "Abcdefg123!" "Abcdefg123!" true)).
  { unfold submittable. simpl. repeat split; solve [discriminate | lia]. }
  destruct (mfa_code_reaches_reset (sample_config true)
              (sample_env 200 None (sample_body (Some "user-1") ""))
              (sample_env 200 None (sample_body None ""))
              (filled "Abcdefg123!" "Abcdefg123!" true) {| code := Some "mfa-123" |}
              (sample_body (Some "user-1") "")
              eq_refl Hchecked eq_refl eq_refl eq_refl) as (_ & Hcalls & _).
  exact Hcalls.
Defined.

(** A refused reset can be tried again.  Without MFA, when the backend
    refuses the reset of a form that passes the checks with a body that is
    JSON, the page shows the backend's message, schedules no redirect,
    turns the loading flag off and keeps the form, which still passes the
    checks: a second click sends the same request again. *)
Theorem refused_reset_can_be_retried (c : Config) (env env2 : Env) (s : State)
    (body : Body) :
  isMfa c = false -> submittable s ->
  ok (fetch env (reset_request c s None)) = false ->
  json (fetch env (reset_request c s None)) = Some body ->
  let s1 := dispatch c s (click_save env) in
  err s1 = message body
  /\ formValues s1 = formValues s
  /\ success s1 = success s
  /\ timers s1 = timers s
  /\ isLoading s1 = false
  /\ submittable s1
  /\ calls (dispatch c s1 (click_save env2))
     = calls s ++ [reset_request c s None; reset_request c s None].
Proof.
  intros Hmfa Hchecked Hrefused Hbody s1.
  assert (Hs1 : handler c (click_save env) s
                = set_isLoading false
                    (set_err (message body)
                       (set_calls (calls s ++ [reset_request c s None])
                          (set_isLoading true (set_err "" (set_formErrors ∅ s)))))).
  { cbn [handler]. rewrite (passwordReset_checked c env s Hchecked), Hmfa.
    unfold onSubmitFinish, send. unfold reset_request in *. simp_state.
    rewrite Hrefused, Hbody. reflexivity. }
  assert (Hform : formValues s1 = formValues s).
  { subst s1. unfold dispatch. rewrite react_formValues; rewrite Hs1; reflexivity. }
  assert (Haccepted : accepted s1 = accepted s).
  { subst s1. unfold dispatch, react. rewrite Hs1. handler_cases. }
  assert (Hcalls : calls s1 = calls s ++ [reset_request c s None]).
  { subst s1. unfold dispatch, react. rewrite Hs1. handler_cases. }
  assert (Hchecked1 : submittable s1).
  { unfold submittable in *. rewrite Hform, Haccepted. exact Hchecked. }
  conjuncts; try assumption.
  - subst s1. unfold dispatch, react. rewrite Hs1. handler_cases.
  - subst s1. unfold dispatch. rewrite react_success, Hs1. reflexivity.
  - subst s1. unfold dispatch. rewrite react_timers, Hs1. simp_state.
    destruct (success s); reflexivity.
  - subst s1. unfold dispatch. rewrite react_isLoading, Hs1. reflexivity.
  - unfold dispatch at 1. unfold react.
    assert (Hsecond : calls (handler c (click_save env2) s1)
                      = calls s1 ++ [reset_request c s1 None]).
    { cbn [handler]. rewrite (passwordReset_checked c env2 s1 Hchecked1), Hmfa.
      rewrite onSubmitFinish_calls. reflexivity. }
    assert (Hreq : reset_request c s1 None = reset_request c s None).
    { unfold reset_request. rewrite Hform. reflexivity. }
    rewrite Hreq, Hcalls, <- app_assoc in Hsecond. cbn [app] in Hsecond.
    rewrite <- Hsecond. handler_cases.
Qed.

Lemma refused_reset_can_be_retried_witness :
  err (dispatch (sample_config false) (filled "Abcdefg123!" "Abcdefg123!" true)
         (click_save (sample_env 400 None (sample_body None "Password was used recently"))))
  = "Password was used recently"
  /\ formValues (dispatch (sample_config false) (filled "Abcdefg123!" "Abcdefg123!" true)
                   (click_save (sample_env 400 None
                                  (sample_body None "Password was used recently"))))
     = {| passkeyName := ""; password := "Abcdefg123!"; passwordConfirm := "Abcdefg123!" |}.
Proof.
  assert (Hchecked : submittable (filled "Abcdefg123!" "Abcdefg123!" true)).
  { unfold submittable. simpl. repeat split; solve [discriminate | lia]. }
  destruct (refused_reset_can_be_retried (sample_config false)
              (sample_env 400 None (sample_body None "Password was used recently"))
              (sample_env 200 None (sample_body None ""))
              (filled "Abcdefg123!" "Abcdefg123!" true)
              (sample_body None "Password was used recently")
              eq_refl Hchecked eq_refl eq_refl)
    as (Herr & Hform & _).
  split; [exact Herr | exact Hform].
Defined.

(** *** Invariants of the page over any sequence of events *)

Lemma run_snoc (c : Config) (evs : list Event) (ev : Event) :
  run c (evs ++ [ev]) = dispatch c (run c evs) ev.
Proof. unfold run. rewrite fold_left_app. reflexivity. Qed.

Lemma handler_success (c : Config) (ev : Event) (s : State) :
  success s = true -> success (handler c ev s) = true.
Proof.
  intros Hon. destruct ev; cbn [handler]; try exact Hon.
  - unfold handleRegisterPasskey, onWebauthnError. handler_cases.
  - unfold passwordReset, onSubmitFinish. handler_cases.
  - unfold onWebauthnSuccess, onSubmitFinish. handler_cases.
Qed.

Lemma handler_showCopy (c : Config) (ev : Event) (s : State) :
  showCopy (handler c ev s) = showCopy s.
Proof.
  destruct ev; cbn [handler]; try reflexivity.
  - unfold handleRegisterPasskey, onWebauthnError. handler_cases.
  - unfold passwordReset, onSubmitFinish. handler_cases.
  - unfold onWebauthnSuccess, onSubmitFinish. handler_cases.
Qed.

(** The success flag is never taken back, and the redirect is scheduled
    once: after any sequence of events the pending timers are the one
    redirect, 5000 ms after its scheduling, if the success flag is on, and
    none if it is off; and no further event turns the flag off. *)
Theorem redirect_scheduled_once (c : Config) (evs : list Event) :
  timers (run c evs)
  = (if success (run c evs) then [(redirectAfterSuccess, 5000)] else [])
  /\ (forall ev, success (run c evs) = true -> success (run c (evs ++ [ev])) = true).
Proof.
  split.
  - induction evs as [|ev evs IH] using rev_ind; [reflexivity|].
    rewrite run_snoc. unfold dispatch.
    rewrite react_timers, react_success, handler_timers, IH.
    destruct (success (run c evs)) eqn:Hbefore.
    + rewrite (handler_success c ev _ Hbefore). reflexivity.
    + destruct (success (handler c ev (run c evs))); reflexivity.
  - intros ev Hon. rewrite run_snoc. unfold dispatch.
    rewrite react_success. apply handler_success, Hon.
Qed.

(** A request that names the session's own user and carries the session's
    CSRF token and magic link (for the auth start: the purpose
    ["PasswordReset"]). *)
Definition addressed (c : Config) (req : Request) : Prop :=
  match req with
  | webauthnRegStartAccReset uid data token =>
      uid = userId c /\ token = csrf c /\ rs_magic_link_id data = magicLinkId c
  | webauthnRegFinishAccReset uid data token =>
      uid = userId c /\ token = csrf c /\ rf_magic_link_id data = magicLinkId c
  | webauthnAuthStart uid purpose =>
      uid = userId c /\ purpose = "PasswordReset"
  | resetPassword uid data token =>
      uid = userId c /\ token = csrf c /\ rp_magic_link_id data = magicLinkId c
  end.

Ltac addressed_cases :=
  unfold send;
  repeat (simp_state;
          match goal with
          | |- context [match ?x with _ => _ end] => destruct x eqn:?
          end);
  simp_state; rewrite ?Forall_app; conjuncts; try assumption;
  repeat constructor.

Lemma handler_addressed (c : Config) (ev : Event) (s : State) :
  Forall (addressed c) (calls s) -> Forall (addressed c) (calls (handler c ev s)).
Proof.
  intros Hcalls. destruct ev; cbn [handler]; try exact Hcalls.
  - unfold handleRegisterPasskey, onWebauthnError. addressed_cases.
  - unfold passwordReset, onSubmitFinish. addressed_cases.
  - unfold onWebauthnSuccess, onSubmitFinish. addressed_cases.
Qed.

Lemma react_calls (before s : State) : calls (react before s) = calls s.
Proof. unfold react. handler_cases. Qed.

(** Whatever is typed, clicked or answered, every request the page sends
    names the user of the session, and carries the session's CSRF token and
    magic link; the only auth-start purpose is ["PasswordReset"]. *)
Theorem requests_addressed_to_session (c : Config) (evs : list Event) :
  Forall (addressed c) (calls (run c evs)).
Proof.
  induction evs as [|ev evs IH] using rev_ind; [constructor|].
  rewrite run_snoc. unfold dispatch. rewrite react_calls.
  apply handler_addressed, IH.
Qed.

(** The copy button: after any sequence of events, a non-empty password
    equal to its confirmation has [showCopy] set; and once set it stays
    set, also when a successful submission has emptied the form. *)
Theorem showCopy_latched (c : Config) (evs : list Event) :
  (password (formValues (run c evs)) <> "" ->
   password (formValues (run c evs)) = passwordConfirm (formValues (run c evs)) ->
   showCopy (run c evs) = true)
  /\ (forall ev, showCopy (run c evs) = true -> showCopy (run c (evs ++ [ev])) = true).
Proof.
  split.
  - destruct evs as [|ev evs _] using rev_ind; [intros Hne; contradiction Hne; reflexivity|].
    rewrite run_snoc. unfold dispatch, react.
    repeat match goal with
           | |- context [if ?b then _ else _] => destruct b eqn:?
           end; simp_state; intros Hne Hsame; try reflexivity;
      exfalso;
      repeat match goal with
             | H : _ && _ = false |- _ => apply andb_false_iff in H as [H|H]
             | H : Nat.ltb 0 _ = false |- _ => apply Nat.ltb_ge in H
             | H : String.eqb _ _ = false |- _ => apply String.eqb_neq in H
             end;
      try contradiction;
      match goal with
      | H : (String.length ?p <= 0)%nat |- _ => destruct p; [contradiction|cbn in H; lia]
      end.
  - intros ev Hset. rewrite run_snoc. unfold dispatch, react.
    pose proof (handler_showCopy c ev (run c evs)) as Hkeep. rewrite Hset in Hkeep.
    repeat match goal with
           | |- context [if ?b then _ else _] => destruct b
           end; simp_state; auto.
Qed.

Lemma showCopy_latched_witness :
  showCopy (run (sample_config false)
              [input_password "Abcdefg123!"; input_passwordConfirm "Abcdefg123!"]) = true
  /\ showCopy (run (sample_config false)
                 ([input_password "Abcdefg123!"; input_passwordConfirm "Abcdefg123!";
                   bind_accepted true]
                  ++ [click_save (sample_env 200 None (sample_body None ""))])) = true.
Proof.
  split.
  - apply (showCopy_latched (sample_config false)
             [input_password "Abcdefg123!"; input_passwordConfirm "Abcdefg123!"]);
      [discriminate | reflexivity].
  - apply (showCopy_latched (sample_config false)
             [input_password "Abcdefg123!"; input_passwordConfirm "Abcdefg123!";
              bind_accepted true]).
    reflexivity.
Defined.

(** Choosing an account type: a type that is not empty and differs from the
    current one empties the three form fields; choosing the current type
    again keeps them.  In both cases the error message and the field
    annotations of an earlier attempt stay, and nothing is sent. *)
Theorem account_type_switch_empties_form (c : Config) (s : State) (v : string) :
  let s' := dispatch c s (click_accountType v) in
  accountTypeNew s' = v
  /\ (v <> "" -> v <> accountTypeNew s -> formValues s' = emptyForm)
  /\ (v = "" \/ v = accountTypeNew s -> formValues s' = formValues s)
  /\ err s' = err s
  /\ formErrors s' = formErrors s
  /\ calls s' = calls s
  /\ success s' = success s.
Proof.
  intros s'. subst s'. unfold dispatch. cbn [handler]. unfold react. simp_state.
  unfold Js.truthy.
  destruct (String.eqb_spec v (accountTypeNew s)) as [Hsame|Hdiff],
           (String.eqb_spec v "") as [Hempty|Hfilled]; simp_state;
    repeat match goal with
           | |- context [if ?b then _ else _] => destruct b
           end; simp_state; conjuncts; try reflexivity; intros; try tauto; try congruence.
Qed.

Lemma account_type_switch_empties_form_witness :
  formValues (dispatch (sample_config false) (filled "Abcdefg123!" "Abcdefg123!" true)
                (click_accountType "passkey")) = emptyForm.
Proof.
  apply (account_type_switch_empties_form (sample_config false)
           (filled "Abcdefg123!" "Abcdefg123!" true) "passkey"); discriminate.
Defined.

End ResetPage.

(** ** The group deletion dialog ([GroupDelete.svelte]) *)
Module GroupDelete.

(** The variables of the dialog, with two fields that are not variables of
    the script: the group ids [deleteGroup] was called with, oldest first,
    and the number of times the parent's [onSave] was called. *)
Record State : Type := {
  isLoading : bool;
  err : string;
  deleted : list (option string);
  saved : nat;
}.

Definition init : State :=
  {| isLoading := false; err := ""; deleted := []; saved := 0 |}.

(** [onSubmit] for the group with id [group_id] ([None] for a group without
    id), given the backend's answer to the deletion.  When the answer is a
    refusal whose body is not JSON, [await res.json()] rejects and the
    handler ends there. *)
Definition onSubmit (group_id : option string) (res : ResetPage.Response)
    (s : State) : State :=
  let s := {| isLoading := true; err := ""; deleted := deleted s; saved := saved s |} in
  let s :=
    {| isLoading := isLoading s; err := err s;
       deleted := deleted s ++ [group_id]; saved := saved s |} in
  if ResetPage.ok res then
    let s :=
      {| isLoading := isLoading s; err := err s; deleted := deleted s;
         saved := S (saved s) |} in
    {| isLoading := false; err := err s; deleted := deleted s; saved := saved s |}
  else
    match ResetPage.json res with
    | None => s
    | Some body =>
        let s :=
          {| isLoading := isLoading s; err := ResetPage.message body;
             deleted := deleted s; saved := saved s |} in
        {| isLoading := false; err := err s; deleted := deleted s; saved := saved s |}
    end.

(** The dialog after a sequence of clicks on the delete button, given the
    backend's answers in order. *)
Definition attempts (group_id : option string) (answers : list ResetPage.Response)
    : State :=
  fold_left (fun s res => onSubmit group_id res s) answers init.

(** However many times the button is clicked and whatever the backend
    answers: each click sends one deletion request for the group's id, and
    the parent's [onSave] is called once for every accepted deletion and
    never for a refused one.  The loading flag and the error shown are those
    of the last attempt alone: after an accepted deletion the flag is off
    and the error empty; after a refusal with a JSON body the flag is off
    and the error is the backend's message; after a refusal whose body is
    not JSON the flag stays on and no error is shown. *)
Theorem delete_attempts (group_id : option string) (answers : list ResetPage.Response) :
  let s := attempts group_id answers in
  deleted s = repeat group_id (length answers)
  /\ saved s = length (List.filter ResetPage.ok answers)
  /\ match last answers with
     | Some res =>
         if ResetPage.ok res then isLoading s = false /\ err s = ""
         else match ResetPage.json res with
              | Some body => isLoading s = false /\ err s = ResetPage.message body
              | None => isLoading s = true /\ err s = ""
              end
     | None => isLoading s = false /\ err s = ""
     end.
Proof.
  unfold attempts. induction answers as [|res answers IH] using rev_ind.
  - repeat split.
  - rewrite fold_left_app. cbn [fold_left].
    destruct IH as (Hdel & Hsaved & _).
    rewrite last_snoc, length_app, List.filter_app, length_app. cbn [length List.filter].
    assert (Hrep : repeat group_id (length answers) ++ [group_id]
                   = repeat group_id (length answers + 1)).
    { rewrite Nat.add_1_r, <- repeat_cons. reflexivity. }
    set (prev := fold_left _ answers init) in *. clearbody prev.
    unfold onSubmit. cbn zeta.
    destruct (ResetPage.ok res); [|destruct (ResetPage.json res)];
      cbn; rewrite Hdel, Hsaved, Hrep;
      (split; [reflexivity|]); (split; [lia|split; reflexivity]).
Qed.

End GroupDelete.
